(** * truth_table.py: truth tables for the boolean expressions of a Python file

    A shallow embedding of [truth_table.py] and the properties of its
    components: the ordered set of operands, the candidate filter, the
    expression collector, the operand extractor, the evaluator, the table
    builder and the table renderer.

    The program is Python 2 code ([map(str, names) + [...]] concatenates a
    list, [collections.MutableSet]).  Objects that the program compares by
    identity carry an explicit identity here: a tree node has an [id], a
    [Name] object an [oid] taken from an allocation counter. *)

From Stdlib Require Import Ascii String.
From stdpp Require Import gmap strings list pretty.

Open Scope string_scope.
Open Scope list_scope.

(** ** The source tree (module [ast]) *)

(** Operator objects found in the [op] field of a [BoolOp].  The grammar
    only produces [And] and [Or]; the other classes stand for what a tree
    built by hand may carry. *)
Inductive boolop := And | Or | BitAnd | BitOr | BitXor.

Inductive unaryop := Invert | Not | UAdd | USub.

(** Classes of the nodes that are neither [BoolOp] nor [UnaryOp]. *)
Inductive kind :=
| KStr | KNum | KList | KSet | KDict
| KName | KAttribute | KSubscript | KCall | KBinOp | KCompare | KTuple
| KModule | KExpr | KIf | KAssign | KPass.

(** A field of a node, as [ast.iter_fields] yields it: a scalar (or a list
    of scalars), a single node, or a list of nodes. *)
Inductive field (A : Type) :=
| FScalar (v : string)
| FNode (a : A)
| FList (items : list A).
Arguments FScalar {A} v.
Arguments FNode {A} a.
Arguments FList {A} items.

#[warnings="-register-all"]
Inductive node :=
| BoolOp (id : nat) (op : boolop) (values : list node)
| UnaryOp (id : nat) (op : unaryop) (operand : node)
| Generic (id : nat) (cls : kind) (fields : list (field node)).

Definition node_id (n : node) : nat :=
  match n with
  | BoolOp i _ _ | UnaryOp i _ _ | Generic i _ _ => i
  end.

Definition boolop_class_name (o : boolop) : string :=
  match o with
  | And => "And" | Or => "Or"
  | BitAnd => "BitAnd" | BitOr => "BitOr" | BitXor => "BitXor"
  end.

Definition unaryop_class_name (o : unaryop) : string :=
  match o with
  | Invert => "Invert" | Not => "Not" | UAdd => "UAdd" | USub => "USub"
  end.

Definition kind_class_name (k : kind) : string :=
  match k with
  | KStr => "Str" | KNum => "Num" | KList => "List" | KSet => "Set"
  | KDict => "Dict" | KName => "Name" | KAttribute => "Attribute"
  | KSubscript => "Subscript" | KCall => "Call" | KBinOp => "BinOp"
  | KCompare => "Compare" | KTuple => "Tuple" | KModule => "Module"
  | KExpr => "Expr" | KIf => "If" | KAssign => "Assign" | KPass => "Pass"
  end.

(** [node.__class__.__name__] *)
Definition class_name (n : node) : string :=
  match n with
  | BoolOp _ _ _ => "BoolOp"
  | UnaryOp _ _ _ => "UnaryOp"
  | Generic _ k _ => kind_class_name k
  end.

(** [x in [s1, s2, ...]] on strings. *)
Definition str_in (x : string) (l : list string) : bool :=
  existsb (String.eqb x) l.

(** An induction principle that reaches the nodes nested in lists and
    fields. *)
Section node_induction.
Variable P : node → Prop.

Definition field_all (f : field node) : Prop :=
  match f with
  | FScalar _ => True
  | FNode c => P c
  | FList items => Forall P items
  end.

Hypothesis HBoolOp : ∀ i op values, Forall P values → P (BoolOp i op values).
Hypothesis HUnaryOp : ∀ i op operand, P operand → P (UnaryOp i op operand).
Hypothesis HGeneric : ∀ i k fields,
    Forall field_all fields → P (Generic i k fields).

Fixpoint node_rect' (n : node) : P n :=
  match n with
  | BoolOp i op values =>
      HBoolOp i op values
        ((fix go (l : list node) : Forall P l :=
            match l with
            | [] => Forall_nil_2 P
            | x :: l' => Forall_cons_2 P x l' (node_rect' x) (go l')
            end) values)
  | UnaryOp i op operand => HUnaryOp i op operand (node_rect' operand)
  | Generic i k fields =>
      HGeneric i k fields
        ((fix go (l : list (field node)) : Forall field_all l :=
            match l with
            | [] => Forall_nil_2 field_all
            | f :: l' =>
                Forall_cons_2 field_all f l'
                  (match f return field_all f with
                   | FScalar _ => I
                   | FNode c => node_rect' c
                   | FList items =>
                       (fix go' (l : list node) : Forall P l :=
                          match l with
                          | [] => Forall_nil_2 P
                          | x :: l'' =>
                              Forall_cons_2 P x l'' (node_rect' x) (go' l'')
                          end) items
                   end)
                  (go l')
            end) fields)
  end.
End node_induction.

(** ** Exceptions *)

Inductive exn :=
| ValueError
| IndexError
| AssertionError
| NotImplementedError (msg : string).

Inductive result (A : Type) :=
| Ok (a : A)
| Raise (e : exn).
Arguments Ok {A} a.
Arguments Raise {A} e.

Definition bind {A B} (r : result A) (k : A → result B) : result B :=
  match r with
  | Ok a => k a
  | Raise e => Raise e
  end.

Notation "'let*' x ':=' r 'in' k" := (bind r (fun x => k))
  (at level 10, x pattern, r at level 100, k at level 200).

(** ** class Name *)

(** [Name(name, node)]: the label, the set of the identities of the nodes
    that carry it, and the identity of the [Name] object itself. *)
Record Name := mkName { name : string; nodes : gset nat; oid : nat }.

(** [Name.__eq__] with a tree node on the right: [other in self.nodes]. *)
Definition Name_eq_node (self : Name) (other : node) : bool :=
  bool_decide (node_id other ∈ nodes self).

(** [Name.__eq__] with a [Name] on the right: [self.name == other.name]. *)
Definition Name_eq (self other : Name) : bool :=
  String.eqb (name self) (name other).

(** [Name.__or__]: [self.nodes |= other.nodes] (the assertion on the names is
    checked first). *)
Definition Name_or (self other : Name) : result Name :=
  if Name_eq self other
  then Ok (mkName (name self) (nodes self ∪ nodes other) (oid self))
  else Raise AssertionError.

(** [Name] defines no [__hash__]: in Python 2 a class that derives from
    [object] keeps the hash of [object], which is computed from the
    identity of the instance. *)
Definition Name_hash (self : Name) : nat := oid self.

(** [Name.__str__] *)
Definition Name_str (self : Name) : string := name self.

(** ** class OrderedSet *)

(** The dictionary [self.map] finds a key when a stored key is the same
    object, or has the same hash and compares equal. *)
Definition same_key (stored key : Name) : bool :=
  Nat.eqb (oid stored) (oid key) ||
  (Nat.eqb (Name_hash stored) (Name_hash key) && Name_eq stored key).

(** The set in iteration order (the linked list from [end[2]] onwards); the
    keys of [self.map] are its elements. *)
Definition OrderedSet := list Name.

(** [key in self.map] *)
Definition contains (self : OrderedSet) (key : Name) : bool :=
  existsb (fun stored => same_key stored key) self.

(** [OrderedSet.add]: a key that is not in the map is linked in at the end;
    otherwise nothing happens. *)
Definition add (self : OrderedSet) (key : Name) : OrderedSet :=
  if contains self key then self else self ++ [key].

(** [MutableSet.__ior__]: [for value in it: self.add(value)]. *)
Definition ior (self : OrderedSet) (it : list Name) : OrderedSet :=
  fold_left add it self.

(** [OrderedSet(iterable)] *)
Definition OrderedSet_new (iterable : list Name) : OrderedSet :=
  ior [] iterable.

(** [Set.__or__]: a new set made from the elements of [self] followed by
    those of [other]. *)
Definition or_ (self other : OrderedSet) : OrderedSet :=
  OrderedSet_new (self ++ other).

(** ** probably_truthy, collect_bool_ops *)

Definition is_BoolOp (n : node) : bool := String.eqb (class_name n) "BoolOp".

Fixpoint probably_truthy (n : node) : bool :=
  match n with
  | BoolOp _ _ values =>
      forallb (fun v =>
                 match v with
                 | BoolOp _ _ _ => probably_truthy v
                 | _ => negb (str_in (class_name v)
                                ["Str"; "Num"; "List"; "Set"; "Dict"])
                 end) values
  | _ => false
  end.

(** The fields are visited in the order of [_fields]: [('op', 'values')] for
    a [BoolOp], [('op', 'operand')] for a [UnaryOp].  The operator object is
    a node without fields whose class is not [BoolOp]: the call on it
    returns the empty list. *)
Fixpoint collect_bool_ops (n : node) : list node :=
  (if is_BoolOp n && probably_truthy n then [n] else []) ++
  match n with
  | BoolOp _ _ values => [] ++ flat_map collect_bool_ops values
  | UnaryOp _ _ operand => [] ++ collect_bool_ops operand
  | Generic _ _ fields =>
      flat_map (fun f =>
                  match f with
                  | FScalar _ => []
                  | FNode value => collect_bool_ops value
                  | FList items => flat_map collect_bool_ops items
                  end) fields
  end.

(** ** Built-ins used by the program *)

(** The characters that [str.strip()] removes: space, [\t], [\n], [\x0b],
    [\x0c], [\r]. *)
Definition is_space (c : ascii) : bool :=
  let n := nat_of_ascii c in
  Nat.eqb n 32 || (Nat.leb 9 n && Nat.leb n 13).

Fixpoint lstrip (s : string) : string :=
  match s with
  | String c s' => if is_space c then lstrip s' else s
  | EmptyString => EmptyString
  end.

Definition strip (s : string) : string :=
  String.rev (lstrip (String.rev (lstrip s))).

(** [s * n] on strings. *)
Fixpoint str_mul (s : string) (n : nat) : string :=
  match n with
  | O => EmptyString
  | S n' => s +:+ str_mul s n'
  end.

(** [enumerate(l)] *)
Definition enumerate {A} (l : list A) : list (nat * A) :=
  zip (seq 0 (length l)) l.

(** [t[idx]] on a tuple or a list, for an index that is not negative. *)
Definition subscript {A} (t : list A) (idx : nat) : result A :=
  match t !! idx with
  | Some x => Ok x
  | None => Raise IndexError
  end.

Definition all_ (l : list bool) : bool := forallb (fun b => b) l.
Definition any_ (l : list bool) : bool := existsb (fun b => b) l.

(** [itertools.product(pool, repeat=n)], as the library documents it:
    [result = [[]]], then for each of the [n] pools
    [result = [x+[y] for x in result for y in pool]]. *)
Definition product {A} (pool : list A) (repeat : nat) : list (list A) :=
  fold_left
    (fun result pool => flat_map (fun x => map (fun y => x ++ [y]) pool) result)
    (replicate repeat pool) [[]].

(** [list(names).index(value)] for a tree node [value]: the position of the
    first [Name] that compares equal to it, [None] for [ValueError]. *)
Fixpoint index (l : list Name) (value : node) : option nat :=
  match l with
  | [] => None
  | k :: l' => if Name_eq_node k value then Some 0 else S <$> index l' value
  end.

(** A cell of a table row: the header holds strings, the other rows
    booleans. *)
Inductive cell := CStr (s : string) | CBool (b : bool).

Abbreviation row := (list cell).

(** [str(column)] *)
Definition str (c : cell) : string :=
  match c with
  | CStr s => s
  | CBool true => "True"
  | CBool false => "False"
  end.

(** ** collect_names, evaluate, truth_table *)

Section with_unparse.

(** [astunparse.unparse], the external service that renders a node. *)
Variable unparse : node → string.

(** [astunparse.unparse(node).strip()] *)
Definition label (n : node) : string := strip (unparse n).

(** [Name(astunparse.unparse(node).strip(), node)], allocated at [heap]. *)
Definition new_Name (n : node) (heap : nat) : Name :=
  mkName (label n) {[ node_id n ]} heap.

(** The second component is the allocation counter after the call. *)
Fixpoint collect_names (n : node) (heap : nat) : OrderedSet * nat :=
  match n with
  | BoolOp _ _ values =>
      (fix loop (values : list node) (names : OrderedSet) (heap : nat) :=
         match values with
         | [] => (names, heap)
         | value :: rest =>
             if str_in (class_name value) ["BoolOp"; "UnaryOp"] then
               let '(sub, heap') := collect_names value heap in
               loop rest (or_ names sub) heap'
             else
               loop rest (or_ names (OrderedSet_new [new_Name value heap]))
                    (S heap)
         end) values (OrderedSet_new []) heap
  | UnaryOp _ _ operand =>
      let '(sub, heap') := collect_names operand heap in
      (or_ (OrderedSet_new []) sub, heap')
  | Generic _ _ _ =>
      (or_ (OrderedSet_new []) (OrderedSet_new [new_Name n heap]), S heap)
  end.

(** The loop of [collect_names] over the operands of a [BoolOp]. *)
Definition collect_values :=
  fix loop (values : list node) (names : OrderedSet) (heap : nat) :=
    match values with
    | [] => (names, heap)
    | value :: rest =>
        if str_in (class_name value) ["BoolOp"; "UnaryOp"] then
          let '(sub, heap') := collect_names value heap in
          loop rest (or_ names sub) heap'
        else
          loop rest (or_ names (OrderedSet_new [new_Name value heap]))
               (S heap)
    end.

(** The operand positions of an expression: the nodes reached through
    [BoolOp]s and [UnaryOp]s of any operator, from left to right. *)
Fixpoint atoms (n : node) : list node :=
  match n with
  | BoolOp _ _ values => flat_map atoms values
  | UnaryOp _ _ operand => atoms operand
  | Generic _ _ _ => [n]
  end.

(** One fresh [Name] per node of the list, allocated from [heap] on. *)
Fixpoint names_at (l : list node) (heap : nat) : list Name :=
  match l with
  | [] => []
  | a :: l' => new_Name a heap :: names_at l' (S heap)
  end.

Definition unsupported (cls : string) : exn :=
  NotImplementedError ("Nool op " +:+ cls +:+ " not implemented").

Fixpoint evaluate (n : node) (names : OrderedSet) (conditions : list bool)
  : result bool :=
  if negb (Nat.eqb (length names) (length conditions))
  then Raise AssertionError
  else
    match n with
    | BoolOp _ op values =>
        let* results :=
          (fix loop (values : list node) : result (list bool) :=
             match values with
             | [] => Ok []
             | value :: rest =>
                 let* r := match index names value with
                           | Some idx => subscript conditions idx
                           | None => evaluate value names conditions
                           end in
                 let* rs := loop rest in
                 Ok (r :: rs)
             end) values in
        if String.eqb (boolop_class_name op) "And" then Ok (all_ results)
        else if String.eqb (boolop_class_name op) "Or" then Ok (any_ results)
        else Raise (unsupported (boolop_class_name op))
    | UnaryOp _ op operand =>
        if String.eqb (unaryop_class_name op) "Not"
        then let* r := evaluate operand names conditions in Ok (negb r)
        else Raise (unsupported (unaryop_class_name op))
    | Generic _ _ _ =>
        match index names n with
        | Some idx => subscript conditions idx
        | None => Raise ValueError
        end
    end.

Definition truth_table (n : node) (heap : nat) : result (list row) :=
  let names := (collect_names n heap).1 in
  let conditions := product [false; true] (length names) in
  let rows := [map (fun k => CStr (Name_str k)) names ++ [CStr (label n)]] in
  fold_left
    (fun acc condition =>
       let* rows := acc in
       let* r := evaluate n names condition in
       Ok (rows ++ [map CBool condition ++ [CBool r]]))
    conditions (Ok rows).

End with_unparse.

(** ** simple_table *)

(** ['{:^{}}'.format(value, width)]: the text centred in a field of [width]
    characters, the odd space on the right; a text that is too long is left
    as it is. *)
Definition center (value : string) (width : nat) : string :=
  let pad := width - String.length value in
  let left := pad / 2 in
  str_mul " " left +:+ value +:+ str_mul " " (pad - left).

(** [('{:^{}}' * len(column_sizes)).format(...)] on the texts paired with
    the sizes by [zip]: the format has one field per size, and fails when
    [zip] stopped at a shorter list of texts. *)
Definition format_cells (cells : list string) (column_sizes : list nat)
  : result string :=
  if Nat.ltb (length cells) (length column_sizes)
  then Raise IndexError
  else Ok (String.concat "" (zip_with center cells column_sizes)).

(** The body of the inner loop of the first pass. *)
Definition measure_cell (acc : result (list nat)) (ic : nat * cell)
  : result (list nat) :=
  let* column_sizes := acc in
  let length := String.length (str ic.2) in
  let* current := subscript column_sizes ic.1 in
  if Nat.ltb current length
  then Ok (<[ ic.1 := length ]> column_sizes)
  else Ok column_sizes.

Definition measure_row (acc : result (list nat)) (r : row)
  : result (list nat) :=
  fold_left measure_cell (enumerate r) acc.

(** The body of the second loop. *)
Definition render_row (sep : nat) (column_sizes : list nat)
  (acc : result (list string)) (ir : nat * row) : result (list string) :=
  let* lines := acc in
  let* line := format_cells (map str ir.2) column_sizes in
  let lines := lines ++ [line] in
  if Nat.eqb ir.1 0
  then
    let* rule := format_cells (map (fun s => str_mul "-" (s - sep)) column_sizes)
                   column_sizes in
    Ok (lines ++ [rule])
  else Ok lines.

Definition simple_table (lol : list row) (sep : nat) : result string :=
  let* first := subscript lol 0 in
  let column_sizes := replicate (length first) 0 in
  let* column_sizes := fold_left measure_row lol (Ok column_sizes) in
  let column_sizes := map (fun s => s + sep) column_sizes in
  let* lines := fold_left (render_row sep column_sizes) (enumerate lol) (Ok []) in
  Ok (String.concat (String "010" EmptyString) lines).

(** ** A sample rendering service and sample trees *)

(** A plain renderer that stands for [astunparse.unparse] in the examples:
    the text of a name is its first scalar field, operators are written
    infix, and the text ends with a newline. *)
Definition boolop_symbol (o : boolop) : string :=
  match o with
  | And => "and" | Or => "or" | BitAnd => "&" | BitOr => "|" | BitXor => "^"
  end.

Fixpoint render_expr (n : node) : string :=
  match n with
  | BoolOp _ op values =>
      String.concat (" " +:+ boolop_symbol op +:+ " ")
        (map render_expr values)
  | UnaryOp _ Not operand => "not " +:+ render_expr operand
  | UnaryOp _ USub operand => "(- " +:+ render_expr operand +:+ ")"
  | UnaryOp _ UAdd operand => "(+ " +:+ render_expr operand +:+ ")"
  | UnaryOp _ Invert operand => "(~ " +:+ render_expr operand +:+ ")"
  | Generic _ KStr (FScalar v :: _) => "'" +:+ v +:+ "'"
  | Generic _ _ (FScalar v :: _) => v
  | Generic _ k _ => kind_class_name k
  end.

Definition sample_unparse (n : node) : string :=
  render_expr n +:+ String "010" EmptyString.

Definition var (i : nat) (x : string) : node := Generic i KName [FScalar x].
Definition lit (i : nat) (x : string) : node := Generic i KStr [FScalar x].

(** [a and b] *)
Definition a_and_b : node := BoolOp 0 And [var 1 "a"; var 2 "b"].

(** [a and b and a] *)
Definition a_and_b_and_a : node :=
  BoolOp 0 And [var 1 "a"; var 2 "b"; var 3 "a"].

(** [a and (- b)] *)
Definition a_and_minus_b : node :=
  BoolOp 0 And [var 1 "a"; UnaryOp 2 USub (var 3 "b")].

(** [a and ("x" and "y")] *)
Definition a_and_literals : node :=
  BoolOp 0 And [var 1 "a"; BoolOp 2 And [lit 3 "x"; lit 4 "y"]].

(** ["x" and "y"] *)
Definition x_and_y : node := BoolOp 0 And [lit 1 "x"; lit 2 "y"].

(** ** Definitions used to state the properties *)

(** The loop of [evaluate] over the operands of a [BoolOp]. *)
Definition evaluate_values (names : OrderedSet) (conditions : list bool) :=
  fix loop (values : list node) : result (list bool) :=
    match values with
    | [] => Ok []
    | value :: rest =>
        let* r := match index names value with
                  | Some idx => subscript conditions idx
                  | None => evaluate value names conditions
                  end in
        let* rs := loop rest in
        Ok (r :: rs)
    end.

(** The operators that the evaluator implements, checked through the
    [BoolOp]s and [UnaryOp]s of an expression. *)
Fixpoint supported (n : node) : bool :=
  match n with
  | BoolOp _ op values =>
      match op with And | Or => forallb supported values | _ => false end
  | UnaryOp _ op operand =>
      match op with Not => supported operand | _ => false end
  | Generic _ _ _ => true
  end.

(** The data rows of a table: one per assignment, the value of the
    expression in the last column. *)
Fixpoint data_rows (eval : list bool → result bool) (conditions : list (list bool))
  : result (list row) :=
  match conditions with
  | [] => Ok []
  | condition :: rest =>
      let* r := eval condition in
      let* rows := data_rows eval rest in
      Ok ((map CBool condition ++ [CBool r]) :: rows)
  end.

(** The [n] binary digits of [i], the most significant first, [False] for 0
    and [True] for 1. *)
Fixpoint bits (n i : nat) : list bool :=
  match n with
  | O => []
  | S n' => bits n' (i / 2) ++ [Nat.odd i]
  end.

(** The operand positions as the specification words them: an operand of a
    [BoolOp] is flattened only when it is a [BoolOp] or a [UnaryOp] whose
    operator is [Not]; any other operand is one atomic operand. *)
Fixpoint spec_atoms (n : node) : list node :=
  match n with
  | BoolOp _ _ values =>
      flat_map (fun v =>
                  match v with
                  | BoolOp _ _ _ | UnaryOp _ Not _ => spec_atoms v
                  | _ => [v]
                  end) values
  | UnaryOp _ Not operand => spec_atoms operand
  | _ => [n]
  end.

(** A module whose only statement is the expression [e]. *)
Definition module_of (e : node) : node :=
  Generic 100 KModule [FList [Generic 101 KExpr [FNode e]]].

(** The literal-like kinds of the candidate filter. *)
Definition literal_like (n : node) : bool :=
  str_in (class_name n) ["Str"; "Num"; "List"; "Set"; "Dict"].

(** The candidate filter as the claim words it, by cases on the operand: a
    [BoolOp] each of whose operands (a) satisfies the predicate in turn when
    it is a [BoolOp], (b) is of a kind other than the literal-like ones when
    it is not. *)
Fixpoint candidate_as_stated (n : node) : bool :=
  match n with
  | BoolOp _ _ values =>
      forallb (fun v => if is_BoolOp v then candidate_as_stated v
                        else negb (literal_like v)) values
  | _ => false
  end.

(** The number of distinct atomic operands of an expression, as the
    specification counts them: the number of different labels among its
    operand positions. *)
Definition distinct_operands (unparse : node → string) (e : node) : nat :=
  length (remove_dups (map (label unparse) (spec_atoms e))).

(** The nodes of a tree in document order: a node, then the nodes of its
    fields from left to right, depth first. *)
Fixpoint preorder (n : node) : list node :=
  n :: match n with
       | BoolOp _ _ values => flat_map preorder values
       | UnaryOp _ _ operand => preorder operand
       | Generic _ _ fields =>
           flat_map (fun f =>
                       match f with
                       | FScalar _ => []
                       | FNode value => preorder value
                       | FList items => flat_map preorder items
                       end) fields
       end.

(** [a and (b or c)] *)
Definition a_and_b_or_c : node :=
  BoolOp 0 And [var 1 "a"; BoolOp 2 Or [var 3 "b"; var 4 "c"]].

(** A [BoolOp] built by hand with an operator that is neither [And] nor
    [Or], over one name. *)
Definition a_bitand : node := BoolOp 0 BitAnd [var 1 "a"].

(** The printed width of the cell of column [j] in a row. *)
Definition cell_width (r : row) (j : nat) : nat :=
  match r !! j with
  | Some c => String.length (str c)
  | None => 0
  end.

(** The maximum printed width of column [j] across all rows. *)
Definition column_width (lol : list row) (j : nat) : nat :=
  foldr (fun r m => Nat.max (cell_width r j) m) 0 lol.

(** The field width of every column: its maximum printed width plus the
    padding. *)
Definition field_widths (lol : list row) (sep : nat) : list nat :=
  map (fun j => column_width lol j + sep)
    (seq 0 (length (default [] (head lol)))).

(** A line of the table: every text centred in the field of its column, the
    fields joined edge to edge. *)
Definition render_line (widths : list nat) (texts : list string) : string :=
  String.concat "" (zip_with center texts widths).

(** The table as the renderer is specified: the header line, the line of
    dashes under it, then one line per remaining row. *)
Definition rendered (lol : list row) (sep : nat) : string :=
  let widths := field_widths lol sep in
  match lol with
  | [] => ""
  | header :: rest =>
      String.concat (String "010" EmptyString)
        (render_line widths (map str header)
           :: render_line widths (map (fun w => str_mul "-" (w - sep)) widths)
           :: map (fun r => render_line widths (map str r)) rest)
  end.

(** The table of the rendering example: a header and one data row. *)
Definition sample_rows : list row :=
  [[CStr "a"; CStr "b"; CStr "e"]; [CBool false; CBool true; CBool true]].

(** ** The other methods of OrderedSet *)

(** [OrderedSet.__len__]: [len(self.map)]. *)
Definition len (self : OrderedSet) : nat := length self.

(** The list without the entry that the map holds for [key]
    ([prev[2] = next; next[1] = prev]). *)
Fixpoint unlink (self : OrderedSet) (key : Name) : OrderedSet :=
  match self with
  | [] => []
  | stored :: rest =>
      if same_key stored key then rest else stored :: unlink rest key
  end.

(** [OrderedSet.discard] *)
Definition discard (self : OrderedSet) (key : Name) : OrderedSet :=
  if contains self key then unlink self key else self.

(** [OrderedSet.__reversed__]: the keys from [end[1]] backwards. *)
Definition reversed (self : OrderedSet) : list Name := rev self.

(** [KeyError('set is empty')] *)
Inductive KeyError := KeyError_set_is_empty.

(** [OrderedSet.pop]: the key returned and the set after the call, or the
    error of the empty set. *)
Definition pop (self : OrderedSet) (from_end : bool)
  : KeyError + Name * OrderedSet :=
  if Nat.eqb (len self) 0 then inl KeyError_set_is_empty
  else
    match (if from_end then last self else head self) with
    | Some key => inr (key, discard self key)
    | None => inl KeyError_set_is_empty
    end.

(** [==] on the elements of two lists of names: the same object, or
    [Name.__eq__]. *)
Definition Name_equal (a b : Name) : bool :=
  Nat.eqb (oid a) (oid b) || Name_eq a b.

Fixpoint list_equal (l1 l2 : list Name) : bool :=
  match l1, l2 with
  | [], [] => true
  | a :: l1', b :: l2' => Name_equal a b && list_equal l1' l2'
  | _, _ => false
  end.

(** [OrderedSet.__eq__] against another [OrderedSet]:
    [len(self) == len(other) and list(self) == list(other)]. *)
Definition OrderedSet_eq (self other : OrderedSet) : bool :=
  Nat.eqb (len self) (len other) && list_equal self other.

(** The keys of a set are pairwise distinct entries of its map. *)
Definition distinct_keys (self : OrderedSet) : Prop := NoDup (map oid self).

(** ** The truth function of an expression *)

(** The nodes that the extractor and the evaluator walk through: the
    [BoolOp]s and [UnaryOp]s of an expression and the operands under
    them. *)
Fixpoint skeleton (n : node) : list node :=
  n :: match n with
       | BoolOp _ _ values => flat_map skeleton values
       | UnaryOp _ _ operand => skeleton operand
       | Generic _ _ _ => []
       end.

(** The nodes of an expression are distinct objects. *)
Definition distinct_nodes (n : node) : Prop :=
  NoDup (map node_id (skeleton n)).

(** The value that an assignment gives to the operand whose node has the
    identity [i]. *)
Fixpoint assigned (operands : list node) (conditions : list bool) (i : nat)
  : bool :=
  match operands, conditions with
  | a :: operands', c :: conditions' =>
      if Nat.eqb (node_id a) i then c else assigned operands' conditions' i
  | _, _ => false
  end.

(** The truth value of an expression built from [and], [or] and [not] over
    operands whose values [env] gives. *)
Fixpoint truth (env : nat → bool) (n : node) : bool :=
  match n with
  | BoolOp _ And values => forallb (truth env) values
  | BoolOp _ Or values => existsb (truth env) values
  | BoolOp _ _ _ => false
  | UnaryOp _ Not operand => negb (truth env operand)
  | UnaryOp _ _ _ => false
  | Generic i _ _ => env i
  end.

(** The lines of a rendered table: the header line, the line of dashes,
    then one line per remaining row. *)
Definition table_lines (lol : list row) (sep : nat) : list string :=
  let widths := field_widths lol sep in
  match lol with
  | [] => []
  | header :: rest =>
      render_line widths (map str header)
        :: render_line widths (map (fun w => str_mul "-" (w - sep)) widths)
        :: map (fun r => render_line widths (map str r)) rest
  end.

(** ** The report of a file *)

Definition newline : string := String "010" EmptyString.

Section report.

Variable unparse : node → string.

(** [op.lineno], the line of a node in its file. *)
Variable lineno : node → nat.

(** The text for one expression:
    ['Expression: {}\n    in {} line: {}\n\n{}\n'.format(...)]. *)
Definition expression_report (file : string) (heap : nat) (op : node)
  : result string :=
  let text := label unparse op in
  let* rows := truth_table unparse op heap in
  let* table := simple_table rows 4 in
  Ok ("Expression: " +:+ text +:+ newline +:+ "    in " +:+ file
      +:+ " line: " +:+ pretty (lineno op) +:+ newline +:+ newline
      +:+ table +:+ newline).

(** The body of the loop over the files, for the tree of one file: the text
    that is printed, or the exception that ends the program.  The counter
    follows the [Name] objects that each call of [truth_table] creates. *)
Definition file_report (file : string) (tree : node) (heap : nat)
  : result string :=
  let bool_ops := collect_bool_ops tree in
  let* state :=
    fold_left
      (fun acc op =>
         let* state := acc in
         let* text := expression_report file state.2 op in
         Ok (state.1 ++ [text], (collect_names unparse op state.2).2))
      bool_ops (Ok ([], heap)) in
  Ok (String.concat (newline +:+ newline) state.1).

End report.

(** ** The linked cells of OrderedSet *)

(** A cell [[key, prev, next]] of the doubly linked list; the key of the
    sentinel is [None]. *)
Record link := mkLink { lkey : option Name; lprev : nat; lnext : nat }.

(** An [OrderedSet] object: the cells by address, the address of the
    sentinel [self.end], the dictionary [self.map] from the keys to the
    addresses of their cells, and the next free address. *)
Record linked_set := mkLinked {
  cells : gmap nat link;
  end_ : nat;
  map_ : list (Name * nat);
  free : nat
}.

(** [a[1] = v] and [a[2] = v] on the cell at address [a]. *)
Definition set_prev (a v : nat) (s : gmap nat link) : gmap nat link :=
  alter (fun c => mkLink (lkey c) v (lnext c)) a s.

Definition set_next (a v : nat) (s : gmap nat link) : gmap nat link :=
  alter (fun c => mkLink (lkey c) (lprev c) v) a s.

(** [self.map[key]], [None] when the key is not in the map. *)
Fixpoint map_lookup (m : list (Name * nat)) (key : Name) : option nat :=
  match m with
  | [] => None
  | (stored, a) :: m' =>
      if same_key stored key then Some a else map_lookup m' key
  end.

(** [self.map] after [self.map.pop(key)]. *)
Fixpoint map_remove (m : list (Name * nat)) (key : Name) : list (Name * nat) :=
  match m with
  | [] => []
  | (stored, a) :: m' =>
      if same_key stored key then m' else (stored, a) :: map_remove m' key
  end.

(** [OrderedSet()]: the sentinel points to itself. *)
Definition linked_new (free : nat) : linked_set :=
  mkLinked {[ free := mkLink None free free ]} free [] (S free).

(** [OrderedSet.add] on the cells:
    [curr[2] = end[1] = self.map[key] = [key, curr, end]]. *)
Definition linked_add (self : linked_set) (key : Name) : linked_set :=
  match map_lookup (map_ self) key with
  | Some _ => self
  | None =>
      match cells self !! end_ self with
      | Some sentinel =>
          let curr := lprev sentinel in
          let new := free self in
          let s1 := <[new := mkLink (Some key) curr (end_ self)]> (cells self) in
          let s2 := set_next curr new s1 in
          let s3 := set_prev (end_ self) new s2 in
          mkLinked s3 (end_ self) (map_ self ++ [(key, new)]) (S new)
      | None => self
      end
  end.

(** [OrderedSet.discard] on the cells:
    [key, prev, next = self.map.pop(key); prev[2] = next; next[1] = prev]. *)
Definition linked_discard (self : linked_set) (key : Name) : linked_set :=
  match map_lookup (map_ self) key with
  | None => self
  | Some a =>
      match cells self !! a with
      | Some c =>
          let s1 := set_next (lprev c) (lnext c) (cells self) in
          let s2 := set_prev (lnext c) (lprev c) s1 in
          mkLinked s2 (end_ self) (map_remove (map_ self) key) (free self)
      | None => self
      end
  end.

(** The loop of [__iter__] (along [next]) and of [__reversed__] (along
    [prev]): [while curr is not end: yield curr[0]; curr = step(curr)].  The
    fuel bounds the number of cells visited. *)
Fixpoint walk (step : link → nat) (s : gmap nat link) (e curr : nat)
  (fuel : nat) : option (list Name) :=
  if Nat.eqb curr e then Some []
  else
    match fuel with
    | O => None
    | S fuel' =>
        match s !! curr with
        | Some c =>
            match lkey c with
            | Some k => cons k <$> walk step s e (step c) fuel'
            | None => None
            end
        | None => None
        end
    end.

(** [list(self)] and [list(reversed(self))]. *)
Definition linked_iter (self : linked_set) : option (list Name) :=
  match cells self !! end_ self with
  | Some sentinel =>
      walk lnext (cells self) (end_ self) (lnext sentinel) (size (cells self))
  | None => None
  end.

Definition linked_reversed (self : linked_set) : option (list Name) :=
  match cells self !! end_ self with
  | Some sentinel =>
      walk lprev (cells self) (end_ self) (lprev sentinel) (size (cells self))
  | None => None
  end.

(** [len(self)] and [key in self] on the dictionary. *)
Definition linked_len (self : linked_set) : nat := length (map_ self).

Definition linked_contains (self : linked_set) (key : Name) : bool :=
  match map_lookup (map_ self) key with Some _ => true | None => false end.

(** The address after and before a run of cells. *)
Definition head_or (q : nat) (items : list (Name * nat)) : nat :=
  match items with
  | [] => q
  | (_, a) :: _ => a
  end.

Definition last_or (p : nat) (items : list (Name * nat)) : nat :=
  match last items with
  | Some (_, a) => a
  | None => p
  end.

(** The cells of [items] are linked in this order between the cell at [p]
    and the cell at [q]. *)
Fixpoint chain (s : gmap nat link) (p : nat) (items : list (Name * nat))
  (q : nat) : Prop :=
  match items with
  | [] => True
  | (k, a) :: rest =>
      s !! a = Some (mkLink (Some k) p (head_or q rest)) ∧ chain s a rest q
  end.

(** The object [self] holds the keys [l], in this order: the dictionary
    lists them with the addresses of their cells, the addresses are distinct
    and allocated, and the cells form a ring through the sentinel. *)
Definition represents (self : linked_set) (l : OrderedSet) : Prop :=
  map fst (map_ self) = l
  ∧ NoDup (end_ self :: map snd (map_ self))
  ∧ (∀ a, a ∈ end_ self :: map snd (map_ self) → a < free self)
  ∧ cells self !! end_ self
    = Some (mkLink None (last_or (end_ self) (map_ self))
              (head_or (end_ self) (map_ self)))
  ∧ chain (cells self) (end_ self) (map_ self) (end_ self).

(** A call of [add] or [discard]. *)
Inductive set_op := Add (key : Name) | Discard (key : Name).

(** A sequence of calls on the linked cells and on the list of keys. *)
Definition linked_apply (self : linked_set) (o : set_op) : linked_set :=
  match o with
  | Add key => linked_add self key
  | Discard key => linked_discard self key
  end.

Definition list_apply (self : OrderedSet) (o : set_op) : OrderedSet :=
  match o with
  | Add key => add self key
  | Discard key => discard self key
  end.

(** * Properties *)

(** ** The ordered set on freshly allocated names *)

Lemma same_key_oid (stored key : Name) :
  same_key stored key = true ↔ oid stored = oid key.
Proof.
  unfold same_key, Name_hash.
  destruct (Nat.eqb_spec (oid stored) (oid key)) as [E|E]; simpl.
  - tauto.
  - split; [discriminate | intros E'; contradiction].
Qed.

Lemma contains_oid (self : OrderedSet) (key : Name) :
  contains self key = true ↔ oid key ∈ map oid self.
Proof.
  unfold contains. induction self as [|k self IH]; simpl.
  - split; [discriminate | intros H; inversion H].
  - rewrite orb_true_iff, IH, same_key_oid, elem_of_cons. split.
    + intros [E|H]; [left; congruence | right; exact H].
    + intros [E|H]; [left; congruence | right; exact H].
Qed.

Lemma add_fresh (self : OrderedSet) (key : Name) :
  oid key ∉ map oid self → add self key = self ++ [key].
Proof.
  intros H. unfold add.
  destruct (contains self key) eqn:E; [|reflexivity].
  apply contains_oid in E. contradiction.
Qed.

Lemma ior_fresh (it self : OrderedSet) :
  NoDup (map oid (self ++ it)) → ior self it = self ++ it.
Proof.
  unfold ior. revert self.
  induction it as [|k it IH]; intros self H; simpl.
  - by rewrite app_nil_r.
  - assert (Hk : oid k ∉ map oid self).
    { rewrite map_app in H. apply NoDup_app in H as (_ & H & _).
      intros Hin. apply (H _ Hin). simpl. left. }
    rewrite (add_fresh _ _ Hk), IH.
    + by rewrite <- app_assoc.
    + by rewrite <- app_assoc.
Qed.

Lemma or_fresh (self other : OrderedSet) :
  NoDup (map oid (self ++ other)) → or_ self other = self ++ other.
Proof.
  intros H. unfold or_, OrderedSet_new. by rewrite ior_fresh.
Qed.

Section extractor_facts.

Variable unparse : node → string.

Lemma names_at_app (l1 l2 : list node) (heap : nat) :
  names_at unparse (l1 ++ l2) heap = names_at unparse l1 heap ++ names_at unparse l2 (heap + length l1).
Proof.
  revert heap. induction l1 as [|a l1 IH]; intros heap; simpl.
  - by rewrite Nat.add_0_r.
  - rewrite IH. do 3 f_equal. lia.
Qed.

Lemma length_names_at (l : list node) (heap : nat) :
  length (names_at unparse l heap) = length l.
Proof. revert heap. induction l; intros; simpl; auto. Qed.

Lemma oid_names_at (l : list node) (heap : nat) :
  map oid (names_at unparse l heap) = seq heap (length l).
Proof. revert heap. induction l; intros; simpl; [done|]. by f_equal. Qed.

Lemma name_names_at (l : list node) (heap : nat) :
  map name (names_at unparse l heap) = map (label unparse) l.
Proof. revert heap. induction l; intros; simpl; [done|]. by f_equal. Qed.

Lemma or_names_at (l1 l2 : list node) (heap : nat) :
  or_ (names_at unparse l1 heap) (names_at unparse l2 (heap + length l1))
  = names_at unparse (l1 ++ l2) heap.
Proof.
  rewrite names_at_app. apply or_fresh.
  rewrite <- names_at_app, oid_names_at. apply NoDup_seq.
Qed.

Lemma collect_names_BoolOp i op values heap :
  collect_names unparse (BoolOp i op values) heap
  = collect_values unparse values (OrderedSet_new []) heap.
Proof. reflexivity. Qed.

Lemma collect_values_atoms (values pre : list node) (h0 : nat) :
  Forall (fun v => ∀ h, collect_names unparse v h
                        = (names_at unparse (atoms v) h, h + length (atoms v))) values →
  collect_values unparse values (names_at unparse pre h0) (h0 + length pre)
  = (names_at unparse (pre ++ flat_map atoms values) h0,
     h0 + length (pre ++ flat_map atoms values)).
Proof.
  intros H. revert pre. induction H as [|v values Hv _ IH]; intros pre.
  - simpl. by rewrite app_nil_r.
  - cbn [collect_values flat_map].
    replace (pre ++ atoms v ++ flat_map atoms values)
      with ((pre ++ atoms v) ++ flat_map atoms values) by (by rewrite app_assoc).
    destruct (str_in (class_name v) ["BoolOp"; "UnaryOp"]) eqn:E.
    + rewrite Hv, or_names_at.
      replace (h0 + length pre + length (atoms v))
        with (h0 + length (pre ++ atoms v)) by (rewrite length_app; lia).
      apply IH.
    + destruct v as [| |i k fs]; try discriminate E.
      change (OrderedSet_new [new_Name unparse (Generic i k fs) (h0 + length pre)])
        with (names_at unparse [Generic i k fs] (h0 + length pre)).
      rewrite or_names_at.
      replace (S (h0 + length pre))
        with (h0 + length (pre ++ atoms (Generic i k fs)))
        by (rewrite length_app; simpl; lia).
      apply IH.
Qed.

Lemma or_empty_names_at (l : list node) (heap : nat) :
  or_ (OrderedSet_new []) (names_at unparse l heap) = names_at unparse l heap.
Proof.
  apply or_fresh. change (OrderedSet_new [] ++ names_at unparse l heap)
    with (names_at unparse l heap).
  rewrite oid_names_at. apply NoDup_seq.
Qed.

(** The extractor returns one fresh [Name] per operand position. *)
Lemma collect_names_atoms (n : node) (heap : nat) :
  collect_names unparse n heap
  = (names_at unparse (atoms n) heap, heap + length (atoms n)).
Proof.
  revert heap. induction n as [i op values IH|i op operand IH|i k fs _]
    using node_rect'; intros heap.
  - rewrite collect_names_BoolOp.
    pose proof (collect_values_atoms values [] heap IH) as H.
    simpl in H. rewrite Nat.add_0_r in H. exact H.
  - cbn [collect_names atoms]. rewrite IH. by rewrite or_empty_names_at.
  - cbn [collect_names atoms].
    change (OrderedSet_new [new_Name unparse (Generic i k fs) heap])
      with (names_at unparse [Generic i k fs] heap).
    rewrite or_empty_names_at. simpl. f_equal. lia.
Qed.

End extractor_facts.

(** ** The evaluator on registered operands *)

Lemma evaluate_BoolOp i op values names conditions :
  length names = length conditions →
  evaluate (BoolOp i op values) names conditions
  = let* results := evaluate_values names conditions values in
    if String.eqb (boolop_class_name op) "And" then Ok (all_ results)
    else if String.eqb (boolop_class_name op) "Or" then Ok (any_ results)
    else Raise (unsupported (boolop_class_name op)).
Proof.
  intros H. cbn [evaluate]. rewrite H, Nat.eqb_refl. reflexivity.
Qed.

Lemma index_lt (names : list Name) (value : node) (idx : nat) :
  index names value = Some idx → idx < length names.
Proof.
  revert idx. induction names as [|k names IH]; intros idx; simpl.
  - discriminate.
  - destruct (Name_eq_node k value).
    + intros [= <-]. lia.
    + destruct (index names value) as [j|]; simpl; [|discriminate].
      intros [= <-]. specialize (IH j eq_refl). lia.
Qed.

Lemma subscript_lt {A} (t : list A) (idx : nat) :
  idx < length t → ∃ x, subscript t idx = Ok x.
Proof.
  intros H. unfold subscript.
  destruct (lookup_lt_is_Some_2 t idx H) as [x ->]. by exists x.
Qed.

Lemma index_names_at unparse (l : list node) (heap : nat) (a : node) :
  a ∈ l → is_Some (index (names_at unparse l heap) a).
Proof.
  revert heap. induction l as [|b l IH]; intros heap Hin.
  - inversion Hin.
  - simpl. destruct (Name_eq_node (new_Name unparse b heap) a) eqn:E; [by eexists|].
    apply elem_of_cons in Hin as [->|Hin].
    + unfold Name_eq_node, new_Name in E. simpl in E.
      apply bool_decide_eq_false in E. exfalso. apply E. set_solver.
    + destruct (IH (S heap) Hin) as [j ->]. by eexists.
Qed.

(** An expression whose operators are all implemented and whose operand
    positions are all registered evaluates to a boolean. *)
Lemma evaluate_total (n : node) (names : OrderedSet) (conditions : list bool) :
  length names = length conditions →
  supported n = true →
  (∀ a, a ∈ atoms n → is_Some (index names a)) →
  ∃ b, evaluate n names conditions = Ok b.
Proof.
  intros Hlen. induction n as [i op values IH|i op operand IH|i k fs _]
    using node_rect'; intros Hs Hreg.
  - rewrite evaluate_BoolOp by done.
    assert (Hv : ∃ rs, evaluate_values names conditions values = Ok rs).
    { assert (Hs' : forallb supported values = true)
        by (destruct op; simpl in Hs; done).
      clear Hs. induction IH as [|v values Hv _ IHvs].
      - by eexists.
      - simpl in Hs'. apply andb_true_iff in Hs' as [Hs1 Hs2].
        cbn [evaluate_values].
        assert (Hr : ∃ r, match index names v with
                          | Some idx => subscript conditions idx
                          | None => evaluate v names conditions
                          end = Ok r).
        { destruct (index names v) as [idx|] eqn:E.
          - apply subscript_lt. rewrite <- Hlen. by eapply index_lt.
          - apply Hv; [done|]. intros a Ha. apply Hreg. simpl.
            apply elem_of_app. by left. }
        destruct Hr as [r ->].
        destruct IHvs as [rs Hrs]; [|done|].
        { intros a Ha. apply Hreg. simpl. apply elem_of_app. by right. }
        cbn [bind]. rewrite Hrs. by eexists. }
    destruct Hv as [rs ->]. destruct op; simpl in Hs |- *; try done; by eexists.
  - cbn [evaluate]. rewrite Hlen, Nat.eqb_refl. cbn [negb].
    destruct op; simpl in Hs; try done.
    destruct (IH Hs Hreg) as [b ->]. by eexists.
  - cbn [evaluate]. rewrite Hlen, Nat.eqb_refl. cbn [negb].
    destruct (Hreg (Generic i k fs)) as [idx E]; [simpl; set_solver|].
    rewrite E. apply subscript_lt. rewrite <- Hlen. by eapply index_lt.
Qed.

(** ** The assignments *)

Lemma product_S {A} (pool : list A) (n : nat) :
  product pool (S n)
  = flat_map (fun x => map (fun y => x ++ [y]) pool) (product pool n).
Proof.
  unfold product. by rewrite replicate_S_end, fold_left_app.
Qed.

Lemma lookup_pairs {A B} (f g : A → B) (l : list A) (i : nat) :
  flat_map (fun x => [f x; g x]) l !! i
  = (fun x => if Nat.odd i then g x else f x) <$> l !! (i / 2).
Proof.
  revert i. induction l as [|x l IH]; intros i.
  - done.
  - destruct i as [|[|i]]; [done..|].
    change (flat_map (fun x => [f x; g x]) (x :: l) !! S (S i))
      with (flat_map (fun x => [f x; g x]) l !! i).
    rewrite IH.
    replace (S (S i) / 2) with (S (i / 2)).
    + by rewrite Nat.odd_succ_succ.
    + change (S (S i)) with (2 + i).
      replace (2 + i) with (i + 1 * 2) by lia.
      rewrite Nat.div_add by lia. lia.
Qed.

Lemma length_bits (n i : nat) : length (bits n i) = n.
Proof.
  revert i. induction n as [|n IH]; intros i; simpl; [done|].
  rewrite length_app, IH. simpl. lia.
Qed.

Lemma length_product_bool (n : nat) :
  length (product [false; true] n) = 2 ^ n.
Proof.
  induction n as [|n IH]; [done|].
  rewrite product_S, Nat.pow_succ_r', <- IH.
  clear IH. induction (product [false; true] n) as [|x l IHl]; [done|].
  cbn [flat_map map app length] in *. rewrite IHl. lia.
Qed.

Lemma lookup_product_bool (n i : nat) :
  i < 2 ^ n → product [false; true] n !! i = Some (bits n i).
Proof.
  revert i. induction n as [|n IH]; intros i Hi.
  - simpl in Hi. by replace i with 0 by lia.
  - rewrite product_S. cbn [map].
    rewrite (lookup_pairs (fun x => x ++ [false]) (fun x => x ++ [true])).
    rewrite IH.
    + simpl. by destruct (Nat.odd i).
    + rewrite Nat.pow_succ_r' in Hi.
      apply Nat.Div0.div_lt_upper_bound. lia.
Qed.

Lemma product_bool_widths (n : nat) :
  Forall (fun c => length c = n) (product [false; true] n).
Proof.
  apply Forall_lookup. intros i c Hc.
  assert (Hi : i < 2 ^ n).
  { rewrite <- length_product_bool. by eapply lookup_lt_Some. }
  rewrite lookup_product_bool in Hc by done.
  injection Hc as <-. apply length_bits.
Qed.

Lemma bits_testbit (n i k : nat) :
  k < n → bits n i !! k = Some (Nat.testbit i (n - 1 - k)).
Proof.
  revert i k. induction n as [|n IH]; intros i k Hk; [lia|].
  cbn [bits]. destruct (decide (k < n)) as [Hlt|Hge].
  - rewrite lookup_app_l by (by rewrite length_bits).
    rewrite IH by done.
    replace (S n - 1 - k) with (S (n - 1 - k)) by lia.
    cbn [Nat.testbit]. by rewrite Nat.div2_div.
  - replace k with (length (bits n (i / 2)) + 0)
      by (rewrite length_bits; lia).
    rewrite lookup_app_r by lia.
    replace (length (bits n (i / 2)) + 0 - length (bits n (i / 2))) with 0 by lia.
    rewrite length_bits.
    by replace (S n - 1 - (n + 0)) with 0 by lia.
Qed.

(** ** The table builder *)

Lemma fold_rows (eval : list bool → result bool) (conditions : list (list bool))
  (acc : result (list row)) :
  fold_left
    (fun acc condition =>
       let* rows := acc in
       let* r := eval condition in
       Ok (rows ++ [map CBool condition ++ [CBool r]]))
    conditions acc
  = let* rows := acc in
    let* data := data_rows eval conditions in
    Ok (rows ++ data).
Proof.
  revert acc. induction conditions as [|c cs IH]; intros acc.
  - destruct acc; simpl; [by rewrite app_nil_r|done].
  - cbn [fold_left]. rewrite IH. destruct acc as [rows|e]; [|done].
    cbn [bind data_rows]. destruct (eval c) as [r|e]; [|done].
    cbn [bind]. destruct (data_rows eval cs) as [d|e]; [|done].
    cbn [bind]. by rewrite <- app_assoc.
Qed.

Lemma truth_table_rows unparse (n : node) (heap : nat) :
  truth_table unparse n heap
  = let names := names_at unparse (atoms n) heap in
    let* data := data_rows (evaluate n names)
                   (product [false; true] (length (atoms n))) in
    Ok ((map (fun k => CStr (Name_str k)) names ++ [CStr (label unparse n)])
          :: data).
Proof.
  unfold truth_table. rewrite collect_names_atoms. cbn [fst].
  rewrite fold_rows, length_names_at. cbn [bind].
  by destruct (data_rows _ _).
Qed.

Lemma data_rows_total (eval : list bool → result bool)
  (conditions : list (list bool)) :
  Forall (fun c => ∃ b, eval c = Ok b) conditions →
  ∃ data, data_rows eval conditions = Ok data.
Proof.
  induction 1 as [|c cs [b Hb] _ [d Hd]]; [by eexists|].
  cbn [data_rows]. rewrite Hb, Hd. by eexists.
Qed.

Lemma data_rows_lookup (eval : list bool → result bool)
  (conditions : list (list bool)) (data : list row) :
  data_rows eval conditions = Ok data →
  length data = length conditions ∧
  ∀ i c, conditions !! i = Some c →
         ∃ r, eval c = Ok r ∧ data !! i = Some (map CBool c ++ [CBool r]).
Proof.
  revert data. induction conditions as [|c cs IH]; intros data H.
  - injection H as <-. split; [done|]. intros i c Hc. inversion Hc.
  - cbn [data_rows] in H. destruct (eval c) as [r|e] eqn:Er; [|done].
    cbn [bind] in H. destruct (data_rows eval cs) as [d|e]; [|done].
    injection H as <-. destruct (IH d eq_refl) as [Hl Hi].
    split; [simpl; by rewrite Hl|].
    intros [|i] c' Hc.
    + injection Hc as <-. by exists r.
    + by apply Hi.
Qed.

(** * The claims *)

(** ** Operand extractor *)

(** C1 (the program departs from the claim): on [a and b and a] the
    extractor returns three operands, labelled [a], [b], [a]: the second
    occurrence of [a] is a new entry of the ordered set, and its node is
    registered in that entry, not merged into the first one.  Whatever the
    keys, [add] has no merging branch: an element of the set after [add] is
    an element of the set before it, unchanged, or the key itself. *)
Theorem C1_equal_labels_stay_separate :
  (let names := (collect_names sample_unparse a_and_b_and_a 0).1 in
   map name names = ["a"; "b"; "a"]
   ∧ map (fun k => elements (nodes k)) names = [[1]; [2]; [3]]
   ∧ index names (var 3 "a") = Some 2)
  ∧ (∀ (self : OrderedSet) (key k : Name),
        k ∈ add self key → k ∈ self ∨ k = key).
Proof.
  split; [by vm_compute|].
  intros self key k. unfold add. destruct (contains self key).
  - by left.
  - rewrite elem_of_app, list_elem_of_singleton. tauto.
Qed.

Lemma C1_equal_labels_stay_separate_witness :
  let first := new_Name sample_unparse (var 1 "a") 0 in
  let again := new_Name sample_unparse (var 3 "a") 2 in
  Name_eq first again = true
  ∧ again ∈ add [first] again
  ∧ (again ∈ [first] ∨ again = again).
Proof.
  intros first again.
  assert (H : again ∈ add [first] again) by (right; left).
  split; [reflexivity|]. split; [exact H|].
  exact (proj2 C1_equal_labels_stay_separate [first] again again H).
Defined.

(** C2, as stated, fails: on [a and (- b)] the operand under the unary minus
    is what the extractor registers, where the claim has the whole
    [(- b)] as one atomic operand. *)
Lemma C2_unary_minus_is_flattened :
  map name (collect_names sample_unparse a_and_minus_b 0).1 = ["a"; "b"]
  ∧ map (label sample_unparse) (spec_atoms a_and_minus_b) = ["a"; "(- b)"]
  ∧ map name (collect_names sample_unparse a_and_minus_b 0).1
    ≠ map (label sample_unparse) (spec_atoms a_and_minus_b).
Proof. vm_compute. split; [done|]. split; [done|]. discriminate. Qed.

(** C2, amended: an operand of a [BoolOp] is flattened when it is a [BoolOp]
    or a [UnaryOp] of any operator; every other operand becomes one [Name]
    that carries its label and its node.  The result holds one [Name] per
    operand position reached in this way. *)
Theorem C2_extractor_flattens_every_UnaryOp unparse :
  (∀ i op operand heap,
      collect_names unparse (UnaryOp i op operand) heap
      = collect_names unparse operand heap)
  ∧ (∀ i op values heap,
      map name (collect_names unparse (BoolOp i op values) heap).1
      = flat_map
          (fun v => if str_in (class_name v) ["BoolOp"; "UnaryOp"]
                    then map name (collect_names unparse v heap).1
                    else [label unparse v]) values)
  ∧ (∀ n heap,
      collect_names unparse n heap
      = (names_at unparse (atoms n) heap, heap + length (atoms n))).
Proof.
  split; [|split].
  - intros. rewrite !collect_names_atoms. done.
  - intros. rewrite collect_names_atoms. cbn [fst atoms].
    rewrite name_names_at. induction values as [|v values IH]; [done|].
    cbn [flat_map]. rewrite map_app, IH. f_equal.
    rewrite collect_names_atoms. cbn [fst]. rewrite name_names_at.
    destruct v as [| |j k fs]; [done..|by destruct k].
  - apply collect_names_atoms.
Qed.

(** ** Table builder *)

Lemma length_remove_dups_NoDup `{EqDecision A} (l : list A) :
  NoDup l → length (remove_dups l) = length l.
Proof.
  induction 1 as [|x l Hx _ IH]; [done|].
  cbn [remove_dups]. destruct (decide_rel elem_of x l) as [Hin|_]; [done|].
  cbn [length]. by rewrite IH.
Qed.

(** On an expression whose operators are all implemented, the operand
    positions of the extractor are those of the specification. *)
Lemma supported_atoms (e : node) :
  supported e = true → atoms e = spec_atoms e.
Proof.
  induction e as [i op values IH|i op operand IH|i k fs IH] using node_rect';
    intros Hs; [| |done].
  - assert (Hv : forallb supported values = true) by (by destruct op).
    clear Hs. cbn [atoms spec_atoms].
    induction IH as [|v values Hv' _ IHvalues]; [done|].
    cbn [forallb] in Hv. apply andb_true_iff in Hv as [Hv1 Hv2].
    cbn [flat_map]. rewrite (IHvalues Hv2). f_equal.
    destruct v as [| j [] x|]; try done; by apply Hv'.
  - destruct op; try done. cbn [atoms spec_atoms]. by apply IH.
Qed.


(** C3, as stated, fails: [a and (- b)] is a boolean expression with two
    distinct atomic operands for which [truth_table] returns no rows at
    all. *)
Lemma C3_no_table_for_unary_minus :
  distinct_operands sample_unparse a_and_minus_b = 2
  ∧ ¬ ∃ rows,
        truth_table sample_unparse a_and_minus_b 0 = Ok rows
        ∧ length rows
          = 2 ^ distinct_operands sample_unparse a_and_minus_b + 1.
Proof.
  split; [reflexivity|]. intros (rows & H & _). vm_compute in H. discriminate.
Qed.

(** C3, amended: for an expression whose operators are all implemented by
    the evaluator ([And], [Or], [Not]) and in which no atomic operand occurs
    twice, with [n] its number of distinct atomic operands, [truth_table]
    returns exactly [2^n + 1] rows, and every row has [n + 1] columns. *)
Theorem C3_table_dimensions unparse (e : node) (heap : nat) :
  supported e = true →
  NoDup (map (label unparse) (spec_atoms e)) →
  let n := distinct_operands unparse e in
  ∃ rows,
    truth_table unparse e heap = Ok rows
    ∧ length rows = 2 ^ n + 1
    ∧ Forall (fun r => length r = n + 1) rows.
Proof.
  intros Hs Hnd n. subst n. unfold distinct_operands.
  rewrite (length_remove_dups_NoDup _ Hnd), length_map.
  rewrite <- (supported_atoms e Hs).
  rewrite truth_table_rows. cbn zeta.
  set (names := names_at unparse (atoms e) heap).
  set (n := length (atoms e)).
  destruct (data_rows_total (evaluate e names) (product [false; true] n))
    as [data Hd].
  { eapply Forall_impl; [apply product_bool_widths|].
    intros c Hc. simpl in Hc. apply evaluate_total; [|done|].
    - subst names. by rewrite length_names_at.
    - intros a Ha. by apply index_names_at. }
  rewrite Hd. cbn [bind]. eexists. split; [done|].
  destruct (data_rows_lookup _ _ _ Hd) as [Hl Hrows].
  split.
  - cbn [length]. rewrite Hl, length_product_bool. lia.
  - constructor.
    + rewrite length_app, length_map. subst names.
      rewrite length_names_at. done.
    + apply Forall_lookup. intros i r Hr.
      assert (Hi : i < length (product [false; true] n)).
      { rewrite <- Hl. by eapply lookup_lt_Some. }
      destruct (lookup_lt_is_Some_2 _ _ Hi) as [c Hc].
      destruct (Hrows i c Hc) as (b & _ & Hr').
      assert (r = map CBool c ++ [CBool b]) as -> by congruence.
      rewrite length_app, length_map. simpl.
      pose proof (product_bool_widths n) as Hw.
      rewrite Forall_lookup in Hw. by rewrite (Hw i c Hc).
Qed.

Lemma C3_table_dimensions_witness :
  supported a_and_b = true
  ∧ NoDup (map (label sample_unparse) (spec_atoms a_and_b))
  ∧ distinct_operands sample_unparse a_and_b = 2
  ∧ ∃ rows,
      truth_table sample_unparse a_and_b 0 = Ok rows
      ∧ length rows = 2 ^ 2 + 1
      ∧ Forall (fun r => length r = 2 + 1) rows.
Proof.
  assert (Hnd : NoDup (map (label sample_unparse) (spec_atoms a_and_b))).
  { apply (bool_decide_unpack _). vm_compute. exact I. }
  split; [reflexivity|]. split; [exact Hnd|]. split; [reflexivity|].
  exact (C3_table_dimensions sample_unparse a_and_b 0 eq_refl Hnd).
Defined.

(** C4: the assignments for [n] operands are the [2^n] rows of binary
    counting: assignment number [i] holds the [n] binary digits of [i], the
    leftmost operand the most significant one, [False] for the digit 0; the
    data row number [i] of a table starts with that assignment. *)
Theorem C4_binary_counting_order (n i : nat) :
  i < 2 ^ n →
  length (product [false; true] n) = 2 ^ n
  ∧ product [false; true] n !! i = Some (bits n i)
  ∧ (∀ k, k < n → bits n i !! k = Some (Nat.testbit i (n - 1 - k)))
  ∧ (∀ unparse e heap rows,
        length (collect_names unparse e heap).1 = n →
        truth_table unparse e heap = Ok rows →
        ∃ r, evaluate e (collect_names unparse e heap).1 (bits n i) = Ok r
             ∧ rows !! S i = Some (map CBool (bits n i) ++ [CBool r])).
Proof.
  intros Hi. split; [apply length_product_bool|].
  split; [by apply lookup_product_bool|].
  split; [intros k Hk; by apply bits_testbit|].
  intros unparse e heap rows Hn Ht.
  rewrite truth_table_rows in Ht. cbn zeta in Ht.
  rewrite collect_names_atoms in Hn |- *. cbn [fst] in Hn |- *.
  rewrite length_names_at in Hn. rewrite Hn in Ht.
  destruct (data_rows _ _) as [data|] eqn:Hd; [|done].
  injection Ht as <-.
  destruct (data_rows_lookup _ _ _ Hd) as [_ Hrows].
  destruct (Hrows i (bits n i)) as (r & Hr & Hrow).
  { by apply lookup_product_bool. }
  exists r. split; done.
Qed.

Lemma C4_binary_counting_order_witness :
  2 < 2 ^ 2
  ∧ product [false; true] 2
    = [[false; false]; [false; true]; [true; false]; [true; true]]
  ∧ product [false; true] 2 !! 2 = Some [true; false]
  ∧ ∃ rows r, truth_table sample_unparse a_and_b 0 = Ok rows
              ∧ rows !! 3 = Some [CBool true; CBool false; CBool r].
Proof.
  assert (H : 2 < 2 ^ 2) by (simpl; lia).
  split; [exact H|]. split; [reflexivity|].
  destruct (C4_binary_counting_order 2 2 H) as (_ & Hp & _ & Ht).
  split; [exact Hp|].
  destruct (Ht sample_unparse a_and_b 0 _ eq_refl eq_refl) as (r & _ & Hr).
  eexists _, r. split; [reflexivity|exact Hr].
Defined.

(** C5: for the expression [a and b], whose operands [a] and [b] are two
    distinct nodes rendered as [a] and [b], the extractor returns the
    operands [a], [b] and [truth_table] returns the header
    [("a", "b", "a and b")] followed by the four rows of the conjunction. *)
Theorem C5_table_of_a_and_b unparse (i ia ib : nat) (ka kb : kind)
  (fa fb : list (field node)) (heap : nat) :
  let a := Generic ia ka fa in
  let b := Generic ib kb fb in
  let e := BoolOp i And [a; b] in
  ia ≠ ib →
  label unparse a = "a" →
  label unparse b = "b" →
  label unparse e = "a and b" →
  map name (collect_names unparse e heap).1 = ["a"; "b"]
  ∧ truth_table unparse e heap
    = Ok [[CStr "a"; CStr "b"; CStr "a and b"];
          [CBool false; CBool false; CBool false];
          [CBool false; CBool true; CBool false];
          [CBool true; CBool false; CBool false];
          [CBool true; CBool true; CBool true]].
Proof.
  intros a b e Hne Ha Hb He. subst e. subst a b. split.
  - rewrite collect_names_atoms. cbn [fst]. rewrite name_names_at.
    cbn [atoms flat_map app map]. by rewrite Ha, Hb.
  - rewrite truth_table_rows.
    set (a := Generic ia ka fa) in *. set (b := Generic ib kb fb) in *.
    assert (Haa : Name_eq_node (new_Name unparse a heap) a = true).
    { apply bool_decide_eq_true. simpl. set_solver. }
    assert (Hab : Name_eq_node (new_Name unparse a heap) b = false).
    { apply bool_decide_eq_false. simpl. set_solver. }
    assert (Hbb : Name_eq_node (new_Name unparse b (S heap)) b = true).
    { apply bool_decide_eq_true. simpl. set_solver. }
    change (atoms (BoolOp i And [a; b])) with [a; b].
    cbn [names_at length].
    change (product [false; true] 2)
      with [[false; false]; [false; true]; [true; false]; [true; true]].
    cbn [data_rows evaluate length Nat.eqb negb index].
    rewrite Haa, Hab, Hbb.
    cbn [map Name_str name new_Name]. rewrite Ha, Hb, He. reflexivity.
Qed.

Lemma C5_table_of_a_and_b_witness :
  1 ≠ 2
  ∧ label sample_unparse (var 1 "a") = "a"
  ∧ label sample_unparse (var 2 "b") = "b"
  ∧ label sample_unparse a_and_b = "a and b"
  ∧ truth_table sample_unparse a_and_b 0
    = Ok [[CStr "a"; CStr "b"; CStr "a and b"];
          [CBool false; CBool false; CBool false];
          [CBool false; CBool true; CBool false];
          [CBool true; CBool false; CBool false];
          [CBool true; CBool true; CBool true]].
Proof.
  assert (H : 1 ≠ 2) by lia.
  split; [exact H|]. split; [reflexivity|]. split; [reflexivity|].
  split; [reflexivity|].
  exact (proj2 (C5_table_of_a_and_b sample_unparse 0 1 2 KName KName
                  [FScalar "a"] [FScalar "b"] 0 H eq_refl eq_refl eq_refl)).
Defined.

(** C10: [a and (- b)] passes the candidate filter and is reported by the
    collector; the extractor registers the operand under the unary minus and
    not the [UnaryOp] node, so the evaluator does not find that node among
    the operands, recurses into it and rejects its operator: [truth_table]
    raises [NotImplementedError]. *)
Theorem C10_unary_minus_raises unparse (heap : nat) :
  probably_truthy a_and_minus_b = true
  ∧ collect_bool_ops (module_of a_and_minus_b) = [a_and_minus_b]
  ∧ (collect_names unparse a_and_minus_b heap).1
    = [new_Name unparse (var 1 "a") heap; new_Name unparse (var 3 "b") (S heap)]
  ∧ index (collect_names unparse a_and_minus_b heap).1
      (UnaryOp 2 USub (var 3 "b")) = None
  ∧ truth_table unparse a_and_minus_b heap
    = Raise (NotImplementedError "Nool op USub not implemented").
Proof.
  split; [reflexivity|]. split; [reflexivity|].
  rewrite truth_table_rows, collect_names_atoms.
  split; [reflexivity|]. split; [by vm_compute|].
  by vm_compute.
Qed.

(** ** Candidate filter and expression collector *)

Lemma filter_flat_map {A B} (p : B → bool) (f : A → list B) (l : list A) :
  List.filter p (flat_map f l) = flat_map (fun x => List.filter p (f x)) l.
Proof.
  induction l as [|x l IH]; [done|].
  cbn [flat_map]. by rewrite List.filter_app, IH.
Qed.

Lemma flat_map_ext_Forall {A B} (f g : A → list B) (l : list A) :
  Forall (fun x => f x = g x) l → flat_map f l = flat_map g l.
Proof.
  induction 1 as [|x l Hx _ IH]; [done|]. cbn [flat_map]. by rewrite Hx, IH.
Qed.

Lemma probably_truthy_is_BoolOp (n : node) :
  probably_truthy n = true → is_BoolOp n = true.
Proof. by destruct n. Qed.

Lemma collect_bool_ops_preorder (n : node) :
  collect_bool_ops n = List.filter probably_truthy (preorder n).
Proof.
  induction n as [i op values IH|i op operand IH|i k fs IH] using node_rect'.
  - cbn [collect_bool_ops preorder List.filter is_BoolOp class_name].
    change (String.eqb "BoolOp" "BoolOp") with true. cbn [andb].
    rewrite filter_flat_map, (flat_map_ext_Forall _ _ _ IH).
    by destruct (probably_truthy (BoolOp i op values)).
  - cbn [collect_bool_ops preorder List.filter probably_truthy].
    rewrite andb_false_r. by rewrite IH.
  - cbn [collect_bool_ops preorder List.filter probably_truthy].
    rewrite andb_false_r, filter_flat_map. cbn [app].
    apply flat_map_ext_Forall. eapply Forall_impl; [exact IH|].
    intros [v|c|items] Hf; cbn [field_all] in Hf.
    + done.
    + exact Hf.
    + rewrite filter_flat_map. by apply flat_map_ext_Forall.
Qed.

Lemma literal_operand_rejected i op (values : list node) (v : node) :
  v ∈ values → literal_like v = true →
  probably_truthy (BoolOp i op values) = false.
Proof.
  intros Hin Hl. apply not_true_is_false. intros H.
  cbn [probably_truthy] in H. rewrite forallb_forall in H.
  specialize (H v (proj1 (list_elem_of_In _ _) Hin)).
  unfold literal_like in Hl.
  destruct v as [| |j k fs]; [done..|]. by rewrite Hl in H.
Qed.

(** C6: [probably_truthy] holds exactly of a [BoolOp] each of whose operands
    is (a) a [BoolOp] that satisfies the predicate in turn, or (b) no
    [BoolOp] and of a kind other than string, number, list, set and
    dictionary.  Consequently a node that is not a [BoolOp] is no candidate,
    a [BoolOp] without operands is one, and an expression all of whose
    operands are literals, such as ["x" and "y"], is no candidate and is
    never reported by the collector. *)
Theorem C6_candidate_filter (n : node) :
  probably_truthy n = candidate_as_stated n
  ∧ (probably_truthy n = true ↔
       ∃ i op values,
         n = BoolOp i op values
         ∧ Forall (fun v => (is_BoolOp v = true ∧ probably_truthy v = true)
                            ∨ (is_BoolOp v = false ∧ literal_like v = false))
             values)
  ∧ (is_BoolOp n = false → probably_truthy n = false)
  ∧ (∀ i op, probably_truthy (BoolOp i op []) = true)
  ∧ (∀ i op values,
        n = BoolOp i op values → values ≠ [] →
        Forall (fun v => literal_like v = true) values →
        probably_truthy n = false ∧ ∀ root, n ∉ collect_bool_ops root).
Proof.
  split; [|split; [|split; [|split]]].
  - induction n as [i op values IH|i op operand IH|i k fs IH] using node_rect';
      [|done..].
    cbn [probably_truthy candidate_as_stated].
    induction IH as [|v values Hv _ IHvalues]; [done|].
    cbn [forallb]. rewrite IHvalues. f_equal.
    destruct v as [| |j k fs]; [exact Hv|done|by destruct k].
  - split.
    + destruct n as [i op values| |]; [|done..]. intros H.
      exists i, op, values. split; [done|].
      cbn [probably_truthy] in H. rewrite forallb_forall in H.
      apply Forall_forall. intros v Hv.
      specialize (H v (proj1 (list_elem_of_In _ _) Hv)).
      destruct v as [| |j k fs]; [left; done|right; done|].
      right. split; [by destruct k|]. by apply negb_true_iff.
    + intros (i & op & values & -> & H). cbn [probably_truthy].
      apply forallb_forall. intros v Hv.
      rewrite Forall_forall in H.
      specialize (H v (proj2 (list_elem_of_In _ _) Hv)).
      destruct H as [[Hb Hp]|[Hb Hl]].
      * by destruct v.
      * destruct v as [| |j k fs]; [done| done |]. by apply negb_true_iff.
  - by destruct n.
  - done.
  - intros i op values -> Hne Hall.
    destruct values as [|v values]; [done|].
    apply Forall_cons in Hall as [Hl _].
    pose proof (literal_operand_rejected i op (v :: values) v
                  (list_elem_of_here _ _) Hl) as H.
    split; [exact H|]. intros root Hr.
    rewrite collect_bool_ops_preorder in Hr.
    apply list_elem_of_In, List.filter_In in Hr as [_ Hr]. congruence.
Qed.

Lemma C6_candidate_filter_witness :
  is_BoolOp (var 1 "a") = false
  ∧ probably_truthy (var 1 "a") = false
  ∧ [lit 1 "x"; lit 2 "y"] ≠ []
  ∧ Forall (fun v => literal_like v = true) [lit 1 "x"; lit 2 "y"]
  ∧ probably_truthy x_and_y = false
  ∧ (x_and_y ∉ collect_bool_ops (module_of x_and_y))
  ∧ probably_truthy a_and_literals = candidate_as_stated a_and_literals.
Proof.
  assert (Hne : [lit 1 "x"; lit 2 "y"] ≠ []) by discriminate.
  assert (Hall : Forall (fun v => literal_like v = true)
                   [lit 1 "x"; lit 2 "y"]).
  { constructor; [reflexivity|]. constructor; [reflexivity|]. constructor. }
  split; [reflexivity|].
  split;
    [exact (proj1 (proj2 (proj2 (C6_candidate_filter (var 1 "a")))) eq_refl)|].
  split; [exact Hne|]. split; [exact Hall|].
  destruct (proj2 (proj2 (proj2 (proj2 (C6_candidate_filter x_and_y))))
              0 And [lit 1 "x"; lit 2 "y"] eq_refl Hne Hall)
    as [H1 H2].
  split; [exact H1|]. split; [exact (H2 _)|].
  exact (proj1 (C6_candidate_filter a_and_literals)).
Defined.

(** C7: the collector returns the candidates among the nodes of the tree, in
    document order (a node before the nodes of its fields, the fields from
    left to right); every candidate of the tree is reported, whether or not
    it lies inside another candidate. *)
Theorem C7_collector_is_preorder_filter (root : node) :
  collect_bool_ops root = List.filter probably_truthy (preorder root)
  ∧ (∀ c, c ∈ collect_bool_ops root ↔
          c ∈ preorder root ∧ is_BoolOp c = true ∧ probably_truthy c = true)
  ∧ (∀ i op values,
        preorder (BoolOp i op values)
        = BoolOp i op values :: flat_map preorder values).
Proof.
  split; [apply collect_bool_ops_preorder|]. split; [|done].
  intros c. rewrite collect_bool_ops_preorder.
  rewrite list_elem_of_In, List.filter_In, <- list_elem_of_In.
  split.
  - intros [H1 H2]. by auto using probably_truthy_is_BoolOp.
  - tauto.
Qed.

Lemma C7_collector_is_preorder_filter_witness :
  collect_bool_ops (module_of a_and_b_or_c)
  = [a_and_b_or_c; BoolOp 2 Or [var 3 "b"; var 4 "c"]]
  ∧ BoolOp 2 Or [var 3 "b"; var 4 "c"]
    ∈ collect_bool_ops (module_of a_and_b_or_c).
Proof.
  split; [reflexivity|].
  apply (proj1 (proj2 (C7_collector_is_preorder_filter
                         (module_of a_and_b_or_c)))).
  split; [|split; reflexivity].
  do 4 right. left.
Defined.

(** ** Evaluator *)

(** C8, as stated, fails: the evaluator looks at the operator of a [BoolOp]
    after it has evaluated the operands, so for an operator other than
    [And] and [Or] over an operand that is not registered the error is the
    lookup error of the operand, not the one for the operator. *)
Lemma C8_operand_error_comes_first :
  evaluate a_bitand [] [] = Raise ValueError
  ∧ evaluate a_bitand [] [] ≠ Raise (unsupported "BitAnd").
Proof. split; [reflexivity|discriminate]. Qed.

(** C8, amended: the evaluator returns no value for a [BoolOp] whose
    operator is neither [And] nor [Or]: it raises the error for the operator
    once the operands have been evaluated, and the error of the first
    failing operand otherwise; it raises the error for the operator of a
    [UnaryOp] other than [Not] at once, and the lookup error for an atomic
    node that no operand matches.  The error of an operand is the error of
    the expression, whatever the operator: no error is turned into a
    boolean. *)
Theorem C8_evaluator_errors (names : OrderedSet) (conditions : list bool) :
  length names = length conditions →
  (∀ i op operand,
      op ≠ Not →
      evaluate (UnaryOp i op operand) names conditions
      = Raise (unsupported (unaryop_class_name op)))
  ∧ (∀ i op values,
        op ≠ And → op ≠ Or →
        (∃ e, evaluate (BoolOp i op values) names conditions = Raise e)
        ∧ (∀ results,
              evaluate_values names conditions values = Ok results →
              evaluate (BoolOp i op values) names conditions
              = Raise (unsupported (boolop_class_name op))))
  ∧ (∀ i k fs,
        index names (Generic i k fs) = None →
        evaluate (Generic i k fs) names conditions = Raise ValueError)
  ∧ (∀ i op values e,
        evaluate_values names conditions values = Raise e →
        evaluate (BoolOp i op values) names conditions = Raise e)
  ∧ (∀ i operand e,
        evaluate operand names conditions = Raise e →
        evaluate (UnaryOp i Not operand) names conditions = Raise e).
Proof.
  intros Hlen. split; [|split; [|split; [|split]]].
  - intros i op operand Hop. cbn [evaluate].
    rewrite Hlen, Nat.eqb_refl. by destruct op.
  - intros i op values Hand Hor. rewrite evaluate_BoolOp by done. split.
    + destruct (evaluate_values names conditions values) as [rs|e];
        [|by eexists].
      destruct op; try done; by eexists.
    + intros results ->. by destruct op.
  - intros i k fs Hi. cbn [evaluate]. by rewrite Hlen, Nat.eqb_refl, Hi.
  - intros i op values e He. rewrite evaluate_BoolOp by done. by rewrite He.
  - intros i operand e He. cbn [evaluate].
    rewrite Hlen, Nat.eqb_refl. cbn [negb unaryop_class_name].
    change (String.eqb "Not" "Not") with true. cbn iota. by rewrite He.
Qed.

Lemma C8_evaluator_errors_witness :
  length (names_at sample_unparse [var 1 "a"] 0) = length [true]
  ∧ USub ≠ Not
  ∧ evaluate (UnaryOp 2 USub (var 1 "a"))
      (names_at sample_unparse [var 1 "a"] 0) [true]
    = Raise (NotImplementedError "Nool op USub not implemented")
  ∧ evaluate a_bitand (names_at sample_unparse [var 1 "a"] 0) [true]
    = Raise (NotImplementedError "Nool op BitAnd not implemented")
  ∧ evaluate (var 3 "b") (names_at sample_unparse [var 1 "a"] 0) [true]
    = Raise ValueError.
Proof.
  assert (Hl : length (names_at sample_unparse [var 1 "a"] 0) = length [true])
    by reflexivity.
  assert (Hn : USub ≠ Not) by discriminate.
  assert (Ha : BitAnd ≠ And) by discriminate.
  assert (Ho : BitAnd ≠ Or) by discriminate.
  destruct (C8_evaluator_errors _ _ Hl) as (Hu & Hb & Hg & _).
  split; [exact Hl|]. split; [exact Hn|].
  split; [exact (Hu 2 USub (var 1 "a") Hn)|].
  split; [exact (proj2 (Hb 0 BitAnd [var 1 "a"] Ha Ho) [true] eq_refl)|].
  exact (Hg 3 KName [FScalar "b"] eq_refl).
Defined.

(** ** Table renderer *)

Lemma length_string_app (s1 s2 : string) :
  String.length (s1 +:+ s2) = String.length s1 + String.length s2.
Proof. induction s1 as [|c s1 IH]; simpl; [done|]. by rewrite IH. Qed.

Lemma length_str_mul_char (c : ascii) (n : nat) :
  String.length (str_mul (String c EmptyString) n) = n.
Proof.
  induction n as [|n IH]; [done|].
  cbn [str_mul]. by rewrite length_string_app, IH.
Qed.

Lemma length_center (value : string) (width : nat) :
  String.length (center value width) = Nat.max width (String.length value).
Proof.
  unfold center. rewrite !length_string_app, !length_str_mul_char.
  pose proof (Nat.Div0.div_le_upper_bound
                (width - String.length value) 2
                (width - String.length value)).
  lia.
Qed.

Lemma measure_row_from (r : row) (pre sizes : list nat) :
  length r = length sizes →
  fold_left measure_cell (zip (seq (length pre) (length r)) r)
    (Ok (pre ++ sizes))
  = Ok (pre ++ zip_with (fun s c => Nat.max s (String.length (str c)))
                  sizes r).
Proof.
  revert pre sizes. induction r as [|c r IH]; intros pre sizes Hlen.
  - destruct sizes; [done|discriminate].
  - destruct sizes as [|s sizes]; [discriminate|].
    injection Hlen as Hlen.
    cbn [length seq zip zip_with fold_left measure_cell bind fst snd].
    unfold subscript. rewrite list_lookup_middle by done. cbn [bind].
    set (len := String.length (str c)).
    assert (Hstep :
             (if Nat.ltb s len
              then Ok (<[length pre := len]> (pre ++ s :: sizes))
              else Ok (pre ++ s :: sizes))
             = Ok ((pre ++ [Nat.max s len]) ++ sizes)).
    { rewrite <- app_assoc. cbn [app].
      destruct (Nat.ltb_spec s len) as [Hlt|Hge].
      - replace (length pre) with (length pre + 0) by lia.
        rewrite insert_app_r. cbn. do 3 f_equal. lia.
      - do 3 f_equal. lia. }
    rewrite Hstep.
    replace (S (length pre)) with (length (pre ++ [Nat.max s len]))
      by (rewrite length_app; simpl; lia).
    rewrite IH by done. by rewrite <- app_assoc.
Qed.

Lemma measure_rows (rows : list row) (sizes : list nat) :
  Forall (fun r => length r = length sizes) rows →
  fold_left measure_row rows (Ok sizes)
  = Ok (zip_with Nat.max sizes
          (map (column_width rows) (seq 0 (length sizes)))).
Proof.
  revert sizes. induction rows as [|r rows IH]; intros sizes Hall.
  - cbn [fold_left]. f_equal. apply list_eq. intros i.
    rewrite lookup_zip_with, list_lookup_fmap.
    destruct (sizes !! i) as [s|] eqn:Es; [|done].
    rewrite lookup_seq_lt by (by eapply lookup_lt_Some).
    simpl. f_equal. lia.
  - apply Forall_cons in Hall as [Hr Hall].
    cbn [fold_left].
    assert (Hm : measure_row (Ok sizes) r
                 = Ok (zip_with (fun s c => Nat.max s (String.length (str c)))
                         sizes r)).
    { exact (measure_row_from r [] sizes Hr). }
    rewrite Hm.
    set (sizes1 := zip_with _ sizes r).
    assert (Hl : length sizes1 = length sizes).
    { subst sizes1. rewrite length_zip_with_l_eq; done. }
    rewrite IH by (by rewrite Hl). rewrite Hl. f_equal.
    apply list_eq. intros i. subst sizes1.
    rewrite !lookup_zip_with, !list_lookup_fmap.
    destruct (sizes !! i) as [s|] eqn:Es; [|done].
    assert (Hi : i < length sizes) by (by eapply lookup_lt_Some).
    rewrite lookup_seq_lt by done.
    destruct (lookup_lt_is_Some_2 r i) as [c Ec]; [by rewrite Hr|].
    rewrite Ec. simpl. unfold cell_width. rewrite Ec. f_equal. lia.
Qed.

Lemma format_cells_line (cells : list string) (widths : list nat) :
  length cells = length widths →
  format_cells cells widths = Ok (render_line widths cells).
Proof.
  intros H. unfold format_cells.
  destruct (Nat.ltb_spec (length cells) (length widths)); [lia|done].
Qed.

Lemma render_rest (sep : nat) (widths : list nat) (rest : list row)
  (o : nat) (acc : list string) :
  Forall (fun r => length r = length widths) rest →
  fold_left (render_row sep widths) (zip (seq (S o) (length rest)) rest)
    (Ok acc)
  = Ok (acc ++ map (fun r => render_line widths (map str r)) rest).
Proof.
  intros H. revert o acc. induction H as [|r rest Hr _ IH]; intros o acc.
  - simpl. by rewrite app_nil_r.
  - cbn [length seq zip zip_with fold_left render_row bind fst snd].
    rewrite format_cells_line by (by rewrite length_map).
    cbn [bind Nat.eqb]. rewrite IH. by rewrite <- app_assoc.
Qed.

(** C9: for a non-empty table whose rows all have the length of the header,
    the renderer returns the header line, a line of dashes and the
    remaining lines; the field of a column is as wide as the widest text
    of the column plus the padding; every text is centred in its field and
    fills it; the dashes of a column are as many as the field width less the
    padding. *)
Theorem C9_rendering (header : row) (rest : list row) (sep : nat) :
  Forall (fun r => length r = length header) rest →
  let lol := header :: rest in
  let widths := field_widths lol sep in
  simple_table lol sep
  = Ok (String.concat (String "010" EmptyString)
          (render_line widths (map str header)
             :: render_line widths (map (fun w => str_mul "-" (w - sep)) widths)
             :: map (fun r => render_line widths (map str r)) rest))
  ∧ length widths = length header
  ∧ (∀ j w, widths !! j = Some w →
            w = column_width lol j + sep
            ∧ String.length (str_mul "-" (w - sep)) = column_width lol j
            ∧ String.length (center (str_mul "-" (w - sep)) w) = w
            ∧ ∀ r c, r ∈ lol → r !! j = Some c →
                     (String.length (str c) ≤ column_width lol j)%nat
                     ∧ String.length (center (str c) w) = w)
  ∧ (∀ value width,
        center value width
        = str_mul " " ((width - String.length value) / 2)
          +:+ value
          +:+ str_mul " " ((width - String.length value)
                           - (width - String.length value) / 2)).
Proof.
  intros Hrest lol widths.
  assert (Hall : Forall (fun r => length r = length (replicate (length header) 0))
                   lol).
  { rewrite length_replicate. by constructor. }
  assert (Hsizes :
           fold_left measure_row lol (Ok (replicate (length header) 0))
           = Ok (map (column_width lol) (seq 0 (length header)))).
  { rewrite (measure_rows lol _ Hall), length_replicate. f_equal.
    apply list_eq. intros i.
    rewrite lookup_zip_with, list_lookup_fmap.
    destruct (decide (i < length header)) as [Hi|Hi].
    - rewrite lookup_replicate_2, lookup_seq_lt by done. simpl. f_equal.
    - rewrite (proj1 (lookup_replicate_None _ _ _)), lookup_seq_ge by lia.
      done. }
  assert (Hw : map (fun s => s + sep)
                 (map (column_width lol) (seq 0 (length header))) = widths).
  { subst widths. unfold field_widths. by rewrite map_map. }
  assert (Hlw : length widths = length header).
  { subst widths. unfold field_widths.
    by rewrite length_map, length_seq. }
  split; [|split; [exact Hlw|split; [|done]]].
  - unfold simple_table.
    change (subscript lol 0) with (@Ok row header). cbn [bind].
    rewrite Hsizes. cbn [bind]. rewrite Hw.
    unfold enumerate. subst lol.
    cbn [length seq zip zip_with fold_left render_row bind fst snd Nat.eqb app].
    rewrite format_cells_line by (by rewrite length_map).
    cbn [bind]. rewrite format_cells_line by (by rewrite length_map).
    cbn [bind]. rewrite render_rest.
    + reflexivity.
    + eapply Forall_impl; [exact Hrest|]. intros r Hr. simpl in Hr. lia.
  - intros j w Hj. subst widths. unfold field_widths in Hj.
    rewrite list_lookup_fmap in Hj.
    destruct (seq 0 (length (default [] (head lol))) !! j) as [j'|] eqn:Ej;
      [|done].
    apply lookup_seq in Ej as [-> _].
    assert (w = column_width lol j + sep) as ->
      by (injection Hj as <-; reflexivity).
    clear Hj.
    assert (Hd : String.length (str_mul "-" (column_width lol j + sep - sep))
                 = column_width lol j).
    { rewrite length_str_mul_char. lia. }
    split; [done|]. split; [done|]. split.
    + rewrite length_center, Hd. lia.
    + intros r c Hr Hc.
      assert (Hle : (String.length (str c) ≤ column_width lol j)%nat).
      { clear -Hr Hc. induction Hr as [r l|r r' l _ IH].
        - cbn [column_width foldr]. unfold cell_width. rewrite Hc. lia.
        - cbn [column_width foldr]. fold (column_width l j).
          specialize (IH Hc). lia. }
      split; [done|]. rewrite length_center. lia.
Qed.

Lemma C9_rendering_witness :
  Forall (fun r : row => length r = 3)
    [[CBool false; CBool true; CBool true]]
  ∧ field_widths sample_rows 4 = [9; 8; 8]
  ∧ simple_table sample_rows 4
    = Ok ("    a       b       e    " +:+ String "010" EmptyString +:+
          "  -----    ----    ----  " +:+ String "010" EmptyString +:+
          "  False    True    True  ").
Proof.
  assert (H : Forall (fun r : row => length r = 3)
                [[CBool false; CBool true; CBool true]]).
  { constructor; [reflexivity|constructor]. }
  split; [exact H|]. split; [reflexivity|].
  exact (proj1 (C9_rendering [CStr "a"; CStr "b"; CStr "e"]
                  [[CBool false; CBool true; CBool true]] 4 H)).
Defined.

(** * Further properties *)

Open Scope nat_scope.

(** ** OrderedSet *)

Lemma contains_app (s1 s2 : OrderedSet) (key : Name) :
  contains (s1 ++ s2) key = contains s1 key || contains s2 key.
Proof. unfold contains. apply existsb_app. Qed.

Lemma same_key_refl (key : Name) : same_key key key = true.
Proof. by apply same_key_oid. Qed.

Lemma oid_add (self : OrderedSet) (key : Name) :
  map oid (add self key)
  = if contains self key then map oid self else map oid self ++ [oid key].
Proof.
  unfold add. destruct (contains self key); [done|]. by rewrite map_app.
Qed.

Lemma distinct_add (self : OrderedSet) (key : Name) :
  distinct_keys self → distinct_keys (add self key).
Proof.
  unfold distinct_keys. intros H. rewrite oid_add.
  destruct (contains self key) eqn:E; [done|].
  apply NoDup_app. split; [done|]. split; [|apply NoDup_singleton].
  intros o Ho Hk. apply list_elem_of_singleton in Hk as ->.
  apply contains_oid in Ho. congruence.
Qed.

Lemma distinct_ior (it self : OrderedSet) :
  distinct_keys self → distinct_keys (ior self it).
Proof.
  unfold ior. revert self. induction it as [|k it IH]; intros self H; [done|].
  simpl. apply IH. by apply distinct_add.
Qed.

Lemma oid_ior (it self : OrderedSet) (o : nat) :
  o ∈ map oid (ior self it) ↔ o ∈ map oid self ∨ o ∈ map oid it.
Proof.
  unfold ior. revert self. induction it as [|k it IH]; intros self; simpl.
  - rewrite elem_of_nil. tauto.
  - rewrite IH, oid_add, elem_of_cons.
    destruct (contains self k) eqn:E.
    + apply contains_oid in E. split; [tauto|].
      intros [H|[->|H]]; tauto.
    + rewrite elem_of_app, list_elem_of_singleton. tauto.
Qed.

Lemma prefix_add (self : OrderedSet) (key : Name) :
  self `prefix_of` add self key.
Proof.
  unfold add. destruct (contains self key); [done|]. by apply prefix_app_r.
Qed.

Lemma prefix_ior (it self : OrderedSet) : self `prefix_of` ior self it.
Proof.
  unfold ior. revert self. induction it as [|k it IH]; intros self; [done|].
  simpl. etrans; [apply prefix_add|apply IH].
Qed.

Lemma ior_distinct_self (self : OrderedSet) :
  distinct_keys self → ior [] self = self.
Proof. intros H. by apply (ior_fresh self []). Qed.

Lemma ior_app (self it1 it2 : OrderedSet) :
  ior self (it1 ++ it2) = ior (ior self it1) it2.
Proof. unfold ior. apply fold_left_app. Qed.

Lemma distinct_unlink (self : OrderedSet) (key : Name) :
  distinct_keys self → distinct_keys (unlink self key).
Proof.
  unfold distinct_keys. induction self as [|k self IH]; [done|].
  simpl. intros H. apply NoDup_cons in H as [Hk H].
  destruct (same_key k key); [done|].
  simpl. apply NoDup_cons. split; [|by apply IH].
  intros Hin. apply Hk. clear -Hin.
  induction self as [|k' self IH]; [done|].
  simpl in Hin |- *. destruct (same_key k' key).
  - by right.
  - apply elem_of_cons in Hin as [->|Hin]; [by left|right; by apply IH].
Qed.

Lemma contains_unlink_other (self : OrderedSet) (key other : Name) :
  oid other ≠ oid key →
  contains (unlink self key) other = contains self other.
Proof.
  intros Hne. induction self as [|k self IH]; [done|].
  simpl. destruct (same_key k key) eqn:E.
  - apply same_key_oid in E.
    destruct (same_key k other) eqn:E'; [|done].
    apply same_key_oid in E'. congruence.
  - simpl. by rewrite IH.
Qed.

Lemma contains_unlink_same (self : OrderedSet) (key : Name) :
  distinct_keys self → contains (unlink self key) key = false.
Proof.
  unfold distinct_keys. induction self as [|k self IH]; [done|].
  simpl. intros H. apply NoDup_cons in H as [Hk H].
  destruct (same_key k key) eqn:E.
  - apply same_key_oid in E. apply not_true_is_false. intros Hc.
    apply contains_oid in Hc. congruence.
  - simpl. rewrite E. by apply IH.
Qed.

Lemma unlink_fresh_end (self : OrderedSet) (key : Name) :
  contains self key = false → unlink (self ++ [key]) key = self.
Proof.
  induction self as [|k self IH]; simpl.
  - by rewrite same_key_refl.
  - intros H. apply orb_false_iff in H as [H1 H2].
    rewrite H1. by rewrite IH.
Qed.

(** The keys of a set stay pairwise distinct: the constructor removes the
    repeated keys of its argument, and [add], [|] and [discard] keep the
    keys distinct. *)
Theorem OrderedSet_keys_stay_distinct (self other : OrderedSet) (key : Name) :
  distinct_keys (OrderedSet_new other)
  ∧ distinct_keys (or_ self other)
  ∧ (distinct_keys self →
     distinct_keys (add self key) ∧ distinct_keys (discard self key)).
Proof.
  split; [|split].
  - apply distinct_ior. apply NoDup_nil_2.
  - apply distinct_ior. apply NoDup_nil_2.
  - intros H. split; [by apply distinct_add|].
    unfold discard. destruct (contains self key); [|done].
    by apply distinct_unlink.
Qed.

Lemma OrderedSet_keys_stay_distinct_witness :
  let a := new_Name sample_unparse (var 1 "a") 0 in
  let b := new_Name sample_unparse (var 2 "b") 1 in
  distinct_keys [a; b]
  ∧ distinct_keys (OrderedSet_new [a; b; a])
  ∧ distinct_keys (add [a; b] a) ∧ distinct_keys (discard [a; b] a).
Proof.
  intros a b.
  assert (H : distinct_keys [a; b]).
  { unfold distinct_keys. simpl. apply NoDup_cons. split.
    - intros Hin. apply list_elem_of_singleton in Hin. discriminate.
    - apply NoDup_singleton. }
  split; [exact H|].
  split; [exact (proj1 (OrderedSet_keys_stay_distinct [a; b] [a; b; a] a))|].
  exact (proj2 (proj2 (OrderedSet_keys_stay_distinct [a; b] [a; b; a] a)) H).
Defined.

(** [add] followed by a membership test: the key is in the set, adding it
    again changes nothing, the keys that were in the set keep their order
    at the front, and the membership of any other key is unchanged. *)
Theorem add_then_contains (self : OrderedSet) (key other : Name) :
  contains (add self key) key = true
  ∧ add (add self key) key = add self key
  ∧ self `prefix_of` add self key
  ∧ len (add self key) = (if contains self key then len self else S (len self))
  ∧ (oid other ≠ oid key →
     contains (add self key) other = contains self other).
Proof.
  assert (Hc : contains (add self key) key = true).
  { unfold add. destruct (contains self key) eqn:E; [done|].
    rewrite contains_app, E. simpl. by rewrite same_key_refl. }
  split; [exact Hc|]. split; [|split; [apply prefix_add|split]].
  - unfold add at 1. by rewrite Hc.
  - unfold add, len. destruct (contains self key); [done|].
    rewrite length_app. simpl. lia.
  - intros Hne. unfold add. destruct (contains self key); [done|].
    rewrite contains_app. simpl.
    destruct (same_key key other) eqn:E.
    + apply same_key_oid in E. congruence.
    + by rewrite !orb_false_r.
Qed.

Lemma add_then_contains_witness :
  let a := new_Name sample_unparse (var 1 "a") 0 in
  let b := new_Name sample_unparse (var 2 "b") 1 in
  oid b ≠ oid a
  ∧ contains (add [] a) a = true
  ∧ contains (add [] a) b = contains [] b.
Proof.
  intros a b. assert (H : oid b ≠ oid a) by discriminate.
  split; [exact H|].
  destruct (add_then_contains [] a b) as (H1 & _ & _ & _ & H5).
  split; [exact H1|exact (H5 H)].
Defined.

Lemma length_unlink (self : OrderedSet) (key : Name) :
  contains self key = true → length (unlink self key) = length self - 1.
Proof.
  induction self as [|k self IH]; [done|].
  simpl. destruct (same_key k key); simpl; [intros _; lia|].
  intros Hc. rewrite (IH Hc). destruct self; [done|]. simpl. lia.
Qed.

(** [discard]: a key that is not in the set leaves it as it is; a key of the
    set is no longer found afterwards, the other keys are found as before
    and keep their order; discarding a key just added to a set that did not
    hold it gives the set back. *)
Theorem discard_then_contains (self : OrderedSet) (key other : Name) :
  (contains self key = false → discard self key = self)
  ∧ (distinct_keys self → contains (discard self key) key = false)
  ∧ (oid other ≠ oid key →
     contains (discard self key) other = contains self other)
  ∧ discard self key `sublist_of` self
  ∧ (contains self key = false → discard (add self key) key = self).
Proof.
  split; [|split; [|split; [|split]]].
  - intros H. unfold discard. by rewrite H.
  - intros H. unfold discard. destruct (contains self key) eqn:E; [|done].
    by apply contains_unlink_same.
  - intros H. unfold discard. destruct (contains self key); [|done].
    by apply contains_unlink_other.
  - unfold discard. destruct (contains self key); [|done].
    induction self as [|k self IH]; [done|].
    simpl. destruct (same_key k key).
    + by apply sublist_cons.
    + by apply sublist_skip.
  - intros H. unfold discard, add. rewrite H.
    rewrite contains_app, H. simpl. rewrite same_key_refl. simpl.
    by apply unlink_fresh_end.
Qed.

Lemma discard_then_contains_witness :
  let a := new_Name sample_unparse (var 1 "a") 0 in
  let b := new_Name sample_unparse (var 2 "b") 1 in
  contains [a] b = false
  ∧ discard [a] b = [a]
  ∧ discard (add [a] b) b = [a]
  ∧ distinct_keys [a]
  ∧ contains (discard [a] a) a = false
  ∧ oid b ≠ oid a
  ∧ contains (discard [a; b] a) b = contains [a; b] b.
Proof.
  intros a b.
  assert (H1 : contains [a] b = false) by reflexivity.
  assert (H2 : distinct_keys [a]) by apply NoDup_singleton.
  assert (H3 : oid b ≠ oid a) by discriminate.
  split; [exact H1|].
  split; [exact (proj1 (discard_then_contains [a] b a) H1)|].
  split; [exact (proj2 (proj2 (proj2 (proj2 (discard_then_contains [a] b a))))
                   H1)|].
  split; [exact H2|].
  split; [exact (proj1 (proj2 (discard_then_contains [a] a a)) H2)|].
  split; [exact H3|].
  exact (proj1 (proj2 (proj2 (discard_then_contains [a; b] a b))) H3).
Defined.

(** [pop]: the empty set gives [KeyError]; a set that is not empty gives its
    last key, or its first one, and the set without that key; a key just
    added to a set that did not hold it is the one that [pop()] returns,
    together with the set as it was. *)
Theorem pop_returns_an_end (self : OrderedSet) (key : Name) (from_end : bool) :
  pop [] from_end = inl KeyError_set_is_empty
  ∧ pop (key :: self) false = inr (key, self)
  ∧ (contains self key = false → pop (add self key) true = inr (key, self))
  ∧ (self ≠ [] →
     ∃ k rest, pop self from_end = inr (k, rest)
               ∧ k ∈ self ∧ len rest = len self - 1).
Proof.
  split; [by destruct from_end|]. split; [|split].
  - unfold pop, discard. simpl. by rewrite same_key_refl.
  - intros H. unfold pop, add, len. rewrite H, length_app. simpl.
    replace (length self + 1) with (S (length self)) by lia. cbn [Nat.eqb].
    rewrite last_snoc. f_equal. f_equal.
    unfold discard. rewrite contains_app, H. simpl. rewrite same_key_refl.
    simpl. by apply unlink_fresh_end.
  - intros Hne. unfold pop, len.
    destruct self as [|k0 self]; [done|]. cbn [length Nat.eqb].
    assert (Hex : ∃ k, (if from_end then last (k0 :: self) else head (k0 :: self))
                       = Some k ∧ k ∈ k0 :: self).
    { destruct from_end.
      - destruct (last (k0 :: self)) as [k|] eqn:E.
        + exists k. split; [done|].
          apply last_Some in E as [l' ->]. apply elem_of_app. right. left.
        + by apply last_None in E.
      - exists k0. split; [done|left]. }
    destruct Hex as (k & -> & Hin). eexists _, _. split; [done|].
    split; [done|].
    assert (Hc : contains (k0 :: self) k = true).
    { apply contains_oid. apply list_elem_of_fmap. by exists k. }
    unfold discard. rewrite Hc. by rewrite length_unlink.
Qed.

Lemma pop_returns_an_end_witness :
  let a := new_Name sample_unparse (var 1 "a") 0 in
  let b := new_Name sample_unparse (var 2 "b") 1 in
  contains [a] b = false
  ∧ pop (add [a] b) true = inr (b, [a])
  ∧ [a; b] ≠ []
  ∧ ∃ k rest, pop [a; b] true = inr (k, rest)
              ∧ k ∈ [a; b] ∧ len rest = len [a; b] - 1.
Proof.
  intros a b.
  assert (H1 : contains [a] b = false) by reflexivity.
  assert (H2 : [a; b] ≠ []) by discriminate.
  split; [exact H1|].
  split; [exact (proj1 (proj2 (proj2 (pop_returns_an_end [a] b true))) H1)|].
  split; [exact H2|].
  exact (proj2 (proj2 (proj2 (pop_returns_an_end [a; b] b true))) H2).
Defined.

(** [self | other]: the keys of the result are the keys of both sets; when
    the keys of [self] are distinct, they come first, in their order; the
    result is never longer than the two sets together, and the union with
    the empty set is the set. *)
Theorem union_keeps_first_occurrences (self other : OrderedSet) :
  (∀ o, o ∈ map oid (or_ self other)
        ↔ o ∈ map oid self ∨ o ∈ map oid other)
  ∧ (len (or_ self other) ≤ len self + len other)%nat
  ∧ (distinct_keys self →
     self `prefix_of` or_ self other
     ∧ or_ self [] = self
     ∧ or_ self other = ior self other).
Proof.
  split; [|split].
  - intros o. unfold or_, OrderedSet_new. rewrite oid_ior, map_app, elem_of_app.
    rewrite elem_of_nil. tauto.
  - unfold or_, OrderedSet_new, len. rewrite <- length_app.
    generalize (self ++ other). intros it.
    change (length it) with (length (@nil Name) + length it).
    generalize (@nil Name). unfold ior.
    induction it as [|k it IH]; intros acc; simpl; [lia|].
    etrans; [apply IH|]. unfold add. destruct (contains acc k); [lia|].
    rewrite length_app. simpl. lia.
  - intros H.
    assert (Hi : or_ self other = ior self other).
    { unfold or_, OrderedSet_new. by rewrite ior_app, ior_distinct_self. }
    split; [rewrite Hi; apply prefix_ior|]. split; [|done].
    unfold or_, OrderedSet_new. rewrite app_nil_r. by apply ior_distinct_self.
Qed.

Lemma union_keeps_first_occurrences_witness :
  let a := new_Name sample_unparse (var 1 "a") 0 in
  let b := new_Name sample_unparse (var 2 "b") 1 in
  distinct_keys [a; b]
  ∧ [a; b] `prefix_of` or_ [a; b] [b; a]
  ∧ or_ [a; b] [b; a] = [a; b].
Proof.
  intros a b.
  assert (H : distinct_keys [a; b]).
  { unfold distinct_keys. simpl. apply NoDup_cons. split.
    - intros Hin. apply list_elem_of_singleton in Hin. discriminate.
    - apply NoDup_singleton. }
  split; [exact H|].
  split; [exact (proj1 (proj2 (proj2 (union_keeps_first_occurrences
                                         [a; b] [b; a])) H))|].
  reflexivity.
Defined.

(** ** The evaluator computes the truth function *)

Lemma Name_eq_node_new unparse (a v : node) (heap : nat) :
  Name_eq_node (new_Name unparse a heap) v = Nat.eqb (node_id a) (node_id v).
Proof.
  unfold Name_eq_node, new_Name. simpl.
  destruct (Nat.eqb_spec (node_id a) (node_id v)) as [E|E].
  - apply bool_decide_eq_true. set_solver.
  - apply bool_decide_eq_false. set_solver.
Qed.

Lemma index_assigned unparse (operands : list node) (heap : nat)
  (conditions : list bool) (v : node) :
  length conditions = length operands →
  match index (names_at unparse operands heap) v with
  | Some idx =>
      node_id v ∈ map node_id operands
      ∧ conditions !! idx = Some (assigned operands conditions (node_id v))
  | None => node_id v ∉ map node_id operands
  end.
Proof.
  revert heap conditions.
  induction operands as [|a operands IH]; intros heap conditions Hlen.
  - simpl. apply not_elem_of_nil.
  - destruct conditions as [|c conditions]; [discriminate|].
    injection Hlen as Hlen. cbn [names_at index assigned map].
    rewrite Name_eq_node_new.
    destruct (Nat.eqb_spec (node_id a) (node_id v)) as [E|E].
    + split; [rewrite E; left|done].
    + specialize (IH (S heap) conditions Hlen).
      destruct (index (names_at unparse operands (S heap)) v) as [idx|].
      * destruct IH as [Hin Hc]. split; [by right|done].
      * simpl. intros Hin. apply elem_of_cons in Hin as [Hin|Hin]; congruence.
Qed.

Lemma atoms_skeleton (n a : node) :
  a ∈ atoms n → a ∈ skeleton n ∧ ∃ i k fs, a = Generic i k fs.
Proof.
  induction n as [i op values IH|i op operand IH|i k fs _] using node_rect'.
  - cbn [atoms skeleton]. intros Hin.
    apply list_elem_of_In, in_flat_map in Hin as (v & Hv & Ha).
    rewrite Forall_forall in IH.
    apply list_elem_of_In in Hv, Ha.
    destruct (IH v Hv Ha) as [Hs Hg]. split; [|done].
    right. apply list_elem_of_In, in_flat_map. exists v.
    split; by apply list_elem_of_In.
  - cbn [atoms skeleton]. intros Hin. destruct (IH Hin) as [Hs Hg].
    split; [by right|done].
  - cbn [atoms skeleton]. intros Hin. apply list_elem_of_singleton in Hin as ->.
    split; [left|by eexists _, _, _].
Qed.

Lemma NoDup_fmap_eq {A B} (f : A → B) (l : list A) (x y : A) :
  NoDup (map f l) → x ∈ l → y ∈ l → f x = f y → x = y.
Proof.
  induction l as [|z l IH]; intros Hnd Hx Hy Hf; [by inversion Hx|].
  simpl in Hnd. apply NoDup_cons in Hnd as [Hz Hnd].
  apply elem_of_cons in Hx as [->|Hx], Hy as [->|Hy].
  - done.
  - exfalso. apply Hz. rewrite Hf. apply list_elem_of_fmap. by exists y.
  - exfalso. apply Hz. rewrite <- Hf. apply list_elem_of_fmap. by exists x.
  - by apply IH.
Qed.

Lemma data_rows_map (eval : list bool → result bool) (f : list bool → bool)
  (conditions : list (list bool)) :
  Forall (fun c => eval c = Ok (f c)) conditions →
  data_rows eval conditions
  = Ok (map (fun c => map CBool c ++ [CBool (f c)]) conditions).
Proof.
  induction 1 as [|c cs Hc _ IH]; [done|].
  cbn [data_rows]. rewrite Hc, IH. done.
Qed.

Section truth_function.

Variable unparse : node → string.
Variable operands : list node.
Variable heap : nat.
Variable conditions : list bool.
Hypothesis Hlen : length conditions = length operands.

Local Abbreviation names := (names_at unparse operands heap).
Local Abbreviation env := (assigned operands conditions).

Lemma length_names_conditions : length names = length conditions.
Proof. by rewrite length_names_at. Qed.

Lemma lookup_operand (v : node) :
  node_id v ∈ map node_id operands →
  match index names v with
  | Some idx => subscript conditions idx
  | None => evaluate v names conditions
  end = Ok (env (node_id v)).
Proof.
  intros Hin. pose proof (index_assigned unparse operands heap conditions v Hlen)
    as H.
  destruct (index names v) as [idx|]; [|done].
  destruct H as [_ H]. unfold subscript. by rewrite H.
Qed.

Lemma evaluate_truth (n : node) :
  supported n = true →
  (∀ a, a ∈ atoms n → node_id a ∈ map node_id operands) →
  (∀ m, m ∈ skeleton n →
        match m with
        | Generic _ _ _ => True
        | _ => node_id m ∉ map node_id operands
        end) →
  evaluate n names conditions = Ok (truth env n).
Proof.
  induction n as [i op values IH|i op operand IH|i k fs _] using node_rect';
    intros Hs Hat Hsk.
  - rewrite evaluate_BoolOp by apply length_names_conditions.
    assert (Hs' : forallb supported values = true)
      by (destruct op; simpl in Hs; done).
    assert (Hv : evaluate_values names conditions values
                 = Ok (map (truth env) values)).
    { assert (Hat' : ∀ v a, v ∈ values → a ∈ atoms v →
                            node_id a ∈ map node_id operands).
      { intros v a Hv Ha. apply Hat. cbn [atoms].
        apply list_elem_of_In, in_flat_map. exists v.
        split; by apply list_elem_of_In. }
      assert (Hsk' : ∀ v m, v ∈ values → m ∈ skeleton v →
                            match m with
                            | Generic _ _ _ => True
                            | _ => node_id m ∉ map node_id operands
                            end).
      { intros v m Hv Hm. apply Hsk. cbn [skeleton]. right.
        apply list_elem_of_In, in_flat_map. exists v.
        split; by apply list_elem_of_In. }
      clear Hs Hat Hsk.
      induction IH as [|v values Hv _ IHvs]; [done|].
      simpl in Hs'. apply andb_true_iff in Hs' as [Hs1 Hs2].
      cbn [evaluate_values map].
      assert (Hr : match index names v with
                   | Some idx => subscript conditions idx
                   | None => evaluate v names conditions
                   end = Ok (truth env v)).
      { destruct v as [j o vs|j o x|j k fs].
        - pose proof (Hsk' _ _ (list_elem_of_here _ _)
                        (list_elem_of_here _ _)) as Hn.
          pose proof (index_assigned unparse operands heap conditions
                        (BoolOp j o vs) Hlen) as Hi.
          destruct (index names (BoolOp j o vs)) as [idx|].
          + destruct Hi as [Hi _]. by destruct Hn.
          + apply Hv; [done| |].
            * intros a Ha. eapply Hat'; [left|done].
            * intros m Hm. eapply Hsk'; [left|done].
        - pose proof (Hsk' _ _ (list_elem_of_here _ _)
                        (list_elem_of_here _ _)) as Hn.
          pose proof (index_assigned unparse operands heap conditions
                        (UnaryOp j o x) Hlen) as Hi.
          destruct (index names (UnaryOp j o x)) as [idx|].
          + destruct Hi as [Hi _]. by destruct Hn.
          + apply Hv; [done| |].
            * intros a Ha. eapply Hat'; [left|done].
            * intros m Hm. eapply Hsk'; [left|done].
        - apply (lookup_operand (Generic j k fs)).
          eapply Hat'; [left|]. cbn [atoms]. left. }
      rewrite Hr. cbn [bind]. rewrite IHvs; [done|done| |].
      + intros v' a Hv' Ha. eapply Hat'; [right; exact Hv'|done].
      + intros v' m Hv' Hm. eapply Hsk'; [right; exact Hv'|done]. }
    rewrite Hv. cbn [bind].
    destruct op; simpl in Hs; try done; cbn [boolop_class_name truth].
    + change (String.eqb "And" "And") with true. cbn iota.
      unfold all_. f_equal. clear. induction values as [|v vs IHv]; [done|].
      simpl. by rewrite IHv.
    + change (String.eqb "Or" "And") with false.
      change (String.eqb "Or" "Or") with true. cbn iota.
      unfold any_. f_equal. clear. induction values as [|v vs IHv]; [done|].
      simpl. by rewrite IHv.
  - cbn [evaluate]. rewrite length_names_conditions, Nat.eqb_refl. cbn [negb].
    destruct op; simpl in Hs; try done.
    cbn [unaryop_class_name truth].
    change (String.eqb "Not" "Not") with true. cbn iota.
    rewrite IH; [done|done|exact Hat|].
    intros m Hm. apply Hsk. cbn [skeleton]. by right.
  - cbn [evaluate]. rewrite length_names_conditions, Nat.eqb_refl. cbn [negb].
    cbn [truth].
    assert (Hin : node_id (Generic i k fs) ∈ map node_id operands).
    { apply Hat. cbn [atoms]. left. }
    pose proof (index_assigned unparse operands heap conditions
                  (Generic i k fs) Hlen) as Hi.
    destruct (index names (Generic i k fs)) as [idx|].
    + destruct Hi as [_ Hi]. unfold subscript. by rewrite Hi.
    + done.
Qed.

End truth_function.

Lemma distinct_nodes_skeleton (e m : node) :
  distinct_nodes e → m ∈ skeleton e →
  match m with
  | Generic _ _ _ => True
  | _ => node_id m ∉ map node_id (atoms e)
  end.
Proof.
  intros Hd Hm. destruct m as [j o vs|j o x|]; [| |done].
  - intros Hin. apply list_elem_of_fmap in Hin as (a & Hid & Ha).
    destruct (atoms_skeleton e a Ha) as [Hs (i & k & fs & ->)].
    by pose proof (NoDup_fmap_eq node_id _ _ _ Hd Hm Hs Hid).
  - intros Hin. apply list_elem_of_fmap in Hin as (a & Hid & Ha).
    destruct (atoms_skeleton e a Ha) as [Hs (i & k & fs & ->)].
    by pose proof (NoDup_fmap_eq node_id _ _ _ Hd Hm Hs Hid).
Qed.

(** For an expression built with [and], [or] and [not] whose nodes are
    distinct objects, the evaluator returns the truth value of the
    expression under the assignment that gives each operand position the
    value at its index. *)
Theorem evaluate_is_truth_function unparse (e : node) (heap : nat)
  (conditions : list bool) :
  supported e = true →
  distinct_nodes e →
  length conditions = length (collect_names unparse e heap).1 →
  evaluate e (collect_names unparse e heap).1 conditions
  = Ok (truth (assigned (atoms e) conditions) e).
Proof.
  intros Hs Hd Hlen. rewrite collect_names_atoms in Hlen |- *.
  cbn [fst] in Hlen |- *. rewrite length_names_at in Hlen.
  apply evaluate_truth; [done|done| |].
  - intros a Ha. apply list_elem_of_fmap. by exists a.
  - intros m Hm. by apply distinct_nodes_skeleton.
Qed.

Lemma evaluate_is_truth_function_witness :
  supported a_and_b_or_c = true
  ∧ distinct_nodes a_and_b_or_c
  ∧ evaluate a_and_b_or_c (collect_names sample_unparse a_and_b_or_c 0).1
      [true; false; true]
    = Ok true.
Proof.
  assert (Hd : distinct_nodes a_and_b_or_c).
  { unfold distinct_nodes. apply (bool_decide_unpack _). exact I. }
  split; [reflexivity|]. split; [exact Hd|].
  exact (evaluate_is_truth_function sample_unparse a_and_b_or_c 0
           [true; false; true] eq_refl Hd eq_refl).
Defined.

(** ** The table is the truth table *)

(** For an expression built with [and], [or] and [not] whose nodes are
    distinct objects, [truth_table] returns the header of the operand labels
    and the label of the expression, and then, for every assignment in
    turn, the assignment followed by the truth value of the expression
    under it. *)
Theorem truth_table_lists_truth_values unparse (e : node) (heap : nat) :
  supported e = true →
  distinct_nodes e →
  truth_table unparse e heap
  = Ok ((map (fun a => CStr (label unparse a)) (atoms e)
           ++ [CStr (label unparse e)])
          :: map (fun c => map CBool c
                           ++ [CBool (truth (assigned (atoms e) c) e)])
               (product [false; true] (length (atoms e)))).
Proof.
  intros Hs Hd. rewrite truth_table_rows. cbn zeta.
  rewrite (data_rows_map _ (fun c => truth (assigned (atoms e) c) e)).
  - cbn [bind]. do 3 f_equal.
    generalize heap. induction (atoms e) as [|a l IH]; intros h; [done|].
    simpl. by rewrite IH.
  - eapply Forall_impl; [apply product_bool_widths|].
    intros c Hc. simpl in Hc.
    apply evaluate_truth; [done|done| |].
    + intros a Ha. apply list_elem_of_fmap. by exists a.
    + intros m Hm. by apply distinct_nodes_skeleton.
Qed.

Lemma truth_table_lists_truth_values_witness :
  supported a_and_b_or_c = true
  ∧ distinct_nodes a_and_b_or_c
  ∧ ∃ rows, truth_table sample_unparse a_and_b_or_c 0 = Ok rows
            ∧ rows !! 6 = Some [CBool true; CBool false; CBool true; CBool true].
Proof.
  assert (Hd : distinct_nodes a_and_b_or_c).
  { unfold distinct_nodes. apply (bool_decide_unpack _). exact I. }
  split; [reflexivity|]. split; [exact Hd|].
  eexists. split.
  - exact (truth_table_lists_truth_values sample_unparse a_and_b_or_c 0
             eq_refl Hd).
  - reflexivity.
Defined.

Lemma bits_inj (n i j : nat) :
  i < 2 ^ n → j < 2 ^ n → bits n i = bits n j → i = j.
Proof.
  revert i j. induction n as [|n IH]; intros i j Hi Hj Hb.
  - simpl in Hi, Hj. lia.
  - cbn [bits] in Hb. apply app_inj_tail in Hb as [Hb Ho].
    rewrite Nat.pow_succ_r' in Hi, Hj.
    assert (Hq : i / 2 = j / 2).
    { apply IH; [| |done]; apply Nat.Div0.div_lt_upper_bound; lia. }
    rewrite (Nat.div2_odd i), (Nat.div2_odd j), !Nat.div2_div, Hq, Ho. done.
Qed.

(** The assignments of [truth_table] are exhaustive and without repetition:
    every list of [n] booleans occurs among them, and none occurs twice. *)
Theorem assignments_are_exhaustive (n : nat) :
  NoDup (product [false; true] n)
  ∧ ∀ c : list bool, c ∈ product [false; true] n ↔ length c = n.
Proof.
  split.
  - apply NoDup_alt. intros i j c Hi Hj.
    assert (Hi' : i < 2 ^ n).
    { rewrite <- length_product_bool. by eapply lookup_lt_Some. }
    assert (Hj' : j < 2 ^ n).
    { rewrite <- length_product_bool. by eapply lookup_lt_Some. }
    rewrite lookup_product_bool in Hi, Hj by done.
    apply (bits_inj n); congruence.
  - intros c. split.
    + intros Hc. pose proof (product_bool_widths n) as H.
      rewrite Forall_forall in H. by apply H.
    + revert c. induction n as [|n IH]; intros c Hc.
      * destruct c; [left|discriminate].
      * destruct c as [|b0 c0 _] using rev_ind; [discriminate|].
        rewrite length_app in Hc. simpl in Hc.
        rewrite product_S. apply list_elem_of_In, in_flat_map.
        exists c0. split.
        -- apply list_elem_of_In, IH. lia.
        -- simpl. destruct b0; tauto.
Qed.

Lemma assignments_are_exhaustive_witness :
  [true; false] ∈ product [false; true] 2
  ∧ [true] ∉ product [false; true] 2.
Proof.
  split.
  - exact (proj2 (proj2 (assignments_are_exhaustive 2) [true; false]) eq_refl).
  - intros H.
    pose proof (proj1 (proj2 (assignments_are_exhaustive 2) [true]) H) as Hl.
    discriminate Hl.
Defined.

(** ** The renderer on any table *)

Lemma measure_cells_raise (l : list (nat * cell)) (e : exn) :
  fold_left measure_cell l (Raise e) = Raise e.
Proof. induction l as [|x l IH]; [done|]. simpl. exact IH. Qed.

Lemma measure_rows_raise (rows : list row) (e : exn) :
  fold_left measure_row rows (Raise e) = Raise e.
Proof.
  induction rows as [|r rows IH]; [done|]. simpl.
  unfold measure_row at 2. by rewrite measure_cells_raise.
Qed.

Lemma render_rows_raise (sep : nat) (widths : list nat)
  (l : list (nat * row)) (e : exn) :
  fold_left (render_row sep widths) l (Raise e) = Raise e.
Proof. induction l as [|x l IH]; [done|]. simpl. exact IH. Qed.

Lemma measure_row_any (r : row) (pre sizes : list nat) :
  match fold_left measure_cell (zip (seq (length pre) (length r)) r)
          (Ok (pre ++ sizes)) with
  | Ok sizes' =>
      length r ≤ length sizes ∧ length sizes' = length (pre ++ sizes)
  | Raise e => e = IndexError ∧ length sizes < length r
  end.
Proof.
  revert pre sizes. induction r as [|c r IH]; intros pre sizes.
  - simpl. split; [lia|done].
  - cbn [length seq zip zip_with fold_left measure_cell bind fst snd].
    destruct sizes as [|s sizes].
    + unfold subscript. rewrite app_nil_r, lookup_ge_None_2 by lia.
      cbn [bind]. rewrite measure_cells_raise. split; [done|simpl; lia].
    + unfold subscript. rewrite list_lookup_middle by done. cbn [bind].
      set (len := String.length (str c)).
      assert (Hstep :
               ∃ s', (if Nat.ltb s len
                      then Ok (<[length pre := len]> (pre ++ s :: sizes))
                      else Ok (pre ++ s :: sizes))
                     = Ok ((pre ++ [s']) ++ sizes)).
      { destruct (Nat.ltb s len).
        - exists len. replace (length pre) with (length pre + 0) at 1 by lia.
          rewrite insert_app_r. by rewrite <- app_assoc.
        - exists s. by rewrite <- app_assoc. }
      destruct Hstep as [s' ->].
      replace (S (length pre)) with (length (pre ++ [s']))
        by (rewrite length_app; simpl; lia).
      specialize (IH (pre ++ [s']) sizes).
      destruct (fold_left measure_cell _ _) as [sizes'|e].
      * destruct IH as [H1 H2]. split; [simpl; lia|].
        rewrite H2, !length_app. simpl. lia.
      * destruct IH as [H1 H2]. split; [done|simpl; lia].
Qed.

Lemma first_pass (rows : list row) (sizes : list nat) :
  match fold_left measure_row rows (Ok sizes) with
  | Ok sizes' =>
      length sizes' = length sizes
      ∧ Forall (fun r => length r ≤ length sizes) rows
  | Raise e =>
      e = IndexError ∧ ¬ Forall (fun r => length r ≤ length sizes) rows
  end.
Proof.
  revert sizes. induction rows as [|r rows IH]; intros sizes.
  - simpl. by split.
  - cbn [fold_left]. pose proof (measure_row_any r [] sizes) as Hr.
    change (fold_left measure_cell (zip (seq (length []) (length r)) r)
              (Ok ([] ++ sizes)))
      with (measure_row (Ok sizes) r) in Hr.
    destruct (measure_row (Ok sizes) r) as [sizes1|e].
    + destruct Hr as [Hle Hl]. simpl in Hl. specialize (IH sizes1).
      destruct (fold_left measure_row rows (Ok sizes1)) as [sizes'|e].
      * destruct IH as [H1 H2]. rewrite Hl in H1, H2.
        split; [done|by constructor].
      * destruct IH as [H1 H2]. rewrite Hl in H2. split; [done|].
        intros H. apply Forall_cons in H as [_ H]. by apply H2.
    + rewrite measure_rows_raise. destruct Hr as [-> Hlt].
      split; [done|]. intros H. apply Forall_cons in H as [H _]. lia.
Qed.

Lemma second_pass (sep : nat) (widths : list nat) (rows : list row)
  (o : nat) (acc : list string) :
  match fold_left (render_row sep widths) (zip (seq o (length rows)) rows)
          (Ok acc) with
  | Ok lines => Forall (fun r => length widths ≤ length r) rows
  | Raise e =>
      e = IndexError ∧ ¬ Forall (fun r => length widths ≤ length r) rows
  end.
Proof.
  revert o acc. induction rows as [|r rows IH]; intros o acc.
  - simpl. constructor.
  - cbn [length seq zip zip_with fold_left render_row bind fst snd].
    unfold format_cells at 1. rewrite length_map.
    destruct (Nat.ltb_spec (length r) (length widths)) as [Hlt|Hge].
    + cbn [bind]. rewrite render_rows_raise. split; [done|].
      intros H. apply Forall_cons in H as [H _]. lia.
    + cbn [bind].
      assert (Hnext : ∃ acc',
                 (if Nat.eqb o 0
                  then let* rule := format_cells
                                      (map (fun s => str_mul "-" (s - sep)) widths)
                                      widths in
                       Ok ((acc ++ [String.concat "" (zip_with center (map str r) widths)])
                             ++ [rule])
                  else Ok (acc ++ [String.concat "" (zip_with center (map str r) widths)]))
                 = Ok acc').
      { destruct (Nat.eqb o 0); [|by eexists].
        rewrite format_cells_line by (by rewrite length_map). by eexists. }
      destruct Hnext as [acc' ->]. specialize (IH (S o) acc').
      destruct (fold_left _ _ _) as [lines|e].
      * by constructor.
      * destruct IH as [-> IH]. split; [done|].
        intros H. apply Forall_cons in H as [_ H]. by apply IH.
Qed.

(** [simple_table] returns a text exactly for a table that is not empty and
    whose rows all have as many cells as the first one; on every other
    table it raises [IndexError]. *)
Theorem simple_table_needs_a_rectangle (lol : list row) (sep : nat) :
  ((∃ text, simple_table lol sep = Ok text)
   ↔ ∃ header rest,
       lol = header :: rest
       ∧ Forall (fun r => length r = length header) rest)
  ∧ (∀ e, simple_table lol sep = Raise e → e = IndexError).
Proof.
  destruct lol as [|header rest].
  - split; [|by intros e [= <-]]. split.
    + intros [text H]. discriminate.
    + intros (h & r & H & _). discriminate.
  - unfold simple_table.
    change (subscript (header :: rest) 0) with (@Ok row header). cbn [bind].
    pose proof (first_pass (header :: rest) (replicate (length header) 0))
      as H1. rewrite length_replicate in H1.
    destruct (fold_left measure_row _ _) as [sizes|e1].
    + destruct H1 as [Hl Hle]. cbn [bind].
      pose proof (second_pass sep (map (fun s => s + sep) sizes)
                    (header :: rest) 0 []) as H2.
      rewrite length_map, Hl in H2. unfold enumerate.
      destruct (fold_left _ _ _) as [lines|e2].
      * cbn [bind]. split; [|done]. split; [|by eexists].
        intros _. exists header, rest. split; [done|].
        apply Forall_cons in Hle as [_ Hle], H2 as [_ H2].
        rewrite Forall_forall in Hle, H2. apply Forall_forall.
        intros r Hr. specialize (Hle r Hr). specialize (H2 r Hr). lia.
      * destruct H2 as [-> H2]. cbn [bind]. split; [|by intros e [= <-]].
        split; [intros [t Ht]; discriminate|].
        intros (h & r & [= <- <-] & Hall). exfalso. apply H2.
        constructor; [done|]. eapply Forall_impl; [exact Hall|].
        intros x Hx. simpl in Hx. lia.
    + destruct H1 as [-> H1]. cbn [bind]. split; [|by intros e [= <-]].
      split; [intros [t Ht]; discriminate|].
      intros (h & r & [= <- <-] & Hall). exfalso. apply H1.
      constructor; [done|]. eapply Forall_impl; [exact Hall|].
      intros x Hx. simpl in Hx. lia.
Qed.

Lemma simple_table_needs_a_rectangle_witness :
  simple_table [] 4 = Raise IndexError
  ∧ simple_table [[CStr "a"]; [CBool true; CBool false]] 4 = Raise IndexError
  ∧ simple_table [[CStr "a"; CStr "b"]; [CBool true]] 4 = Raise IndexError
  ∧ ∃ text, simple_table sample_rows 4 = Ok text.
Proof.
  split; [reflexivity|]. split; [reflexivity|]. split; [reflexivity|].
  apply (proj1 (simple_table_needs_a_rectangle sample_rows 4)).
  eexists _, _. split; [reflexivity|].
  constructor; [reflexivity|constructor].
Defined.

(** ** The shape of the rendered text *)

Lemma simple_table_rectangular (header : row) (rest : list row) (sep : nat) :
  Forall (fun r => length r = length header) rest →
  simple_table (header :: rest) sep
  = Ok (String.concat (String "010" EmptyString)
          (table_lines (header :: rest) sep)).
Proof.
  intros Hrest. set (lol := header :: rest).
  assert (Hall : Forall (fun r => length r = length (replicate (length header) 0))
                   lol).
  { rewrite length_replicate. by constructor. }
  assert (Hsizes :
           fold_left measure_row lol (Ok (replicate (length header) 0))
           = Ok (map (column_width lol) (seq 0 (length header)))).
  { rewrite (measure_rows lol _ Hall), length_replicate. f_equal.
    apply list_eq. intros i.
    rewrite lookup_zip_with, list_lookup_fmap.
    destruct (decide (i < length header)) as [Hi|Hi].
    - rewrite lookup_replicate_2, lookup_seq_lt by done. simpl. f_equal.
    - rewrite (proj1 (lookup_replicate_None _ _ _)), lookup_seq_ge by lia.
      done. }
  assert (Hw : map (fun s => s + sep)
                 (map (column_width lol) (seq 0 (length header)))
               = field_widths lol sep).
  { unfold field_widths. by rewrite map_map. }
  assert (Hlw : length (field_widths lol sep) = length header).
  { unfold field_widths. by rewrite length_map, length_seq. }
  unfold simple_table.
  change (subscript lol 0) with (@Ok row header). cbn [bind].
  rewrite Hsizes. cbn [bind]. rewrite Hw.
  unfold enumerate, table_lines. subst lol.
  cbn [length seq zip zip_with fold_left render_row bind fst snd Nat.eqb app].
  rewrite format_cells_line by (by rewrite length_map).
  cbn [bind]. rewrite format_cells_line by (by rewrite length_map).
  cbn [bind]. rewrite render_rest.
  - reflexivity.
  - eapply Forall_impl; [exact Hrest|]. intros r Hr. simpl in Hr. lia.
Qed.

Lemma length_concat_empty (l : list string) :
  String.length (String.concat "" l) = sum_list (map String.length l).
Proof.
  induction l as [|x l IH]; [done|].
  destruct l as [|y l].
  - simpl. lia.
  - change (String.concat "" (x :: y :: l))
      with (x +:+ "" +:+ String.concat "" (y :: l)).
    rewrite !length_string_app, IH. simpl. lia.
Qed.

Lemma length_render_line (widths : list nat) (texts : list string) :
  Forall2 (fun t w => String.length t ≤ w) texts widths →
  String.length (render_line widths texts) = sum_list widths.
Proof.
  intros H. unfold render_line. rewrite length_concat_empty.
  induction H as [|t w texts widths Hle _ IH]; [done|].
  simpl. rewrite IH, length_center. lia.
Qed.

Lemma column_width_bound (lol : list row) (r : row) (j : nat) (c : cell) :
  r ∈ lol → r !! j = Some c → String.length (str c) ≤ column_width lol j.
Proof.
  intros Hr Hc. induction Hr as [r l|r r' l _ IH].
  - cbn [column_width foldr]. unfold cell_width. rewrite Hc. lia.
  - cbn [column_width foldr]. fold (column_width l j).
    specialize (IH Hc). lia.
Qed.

Lemma row_fits (lol : list row) (sep : nat) (r : row) :
  r ∈ lol → length r = length (default [] (head lol)) →
  Forall2 (fun t w => String.length t ≤ w) (map str r) (field_widths lol sep).
Proof.
  intros Hr Hl. apply Forall2_same_length_lookup_2.
  - unfold field_widths. by rewrite !length_map, length_seq.
  - intros j t w Ht Hw. rewrite list_lookup_fmap in Ht.
    destruct (r !! j) as [c|] eqn:Ec; [|done]. injection Ht as <-.
    unfold field_widths in Hw. rewrite list_lookup_fmap in Hw.
    destruct (seq 0 _ !! j) as [j'|] eqn:Ej; [|done].
    apply lookup_seq in Ej as [-> _]. injection Hw as <-.
    pose proof (column_width_bound lol r j c Hr Ec). simpl. lia.
Qed.

Lemma rule_fits (widths : list nat) (sep : nat) :
  Forall2 (fun t w => String.length t ≤ w)
    (map (fun w => str_mul "-" (w - sep)) widths) widths.
Proof.
  induction widths as [|w widths IH]; [constructor|].
  simpl. constructor; [|done]. rewrite length_str_mul_char. lia.
Qed.

(** The text of a table whose rows have the length of the header consists of
    one line per row and the line of dashes, and all the lines have the same
    length, the sum of the field widths: the columns are aligned. *)
Theorem rendered_lines_are_aligned (header : row) (rest : list row)
  (sep : nat) :
  Forall (fun r => length r = length header) rest →
  let lol := header :: rest in
  let lines := table_lines lol sep in
  simple_table lol sep = Ok (String.concat (String "010" EmptyString) lines)
  ∧ length lines = S (length lol)
  ∧ Forall (fun line => String.length line = sum_list (field_widths lol sep))
      lines.
Proof.
  intros Hrest lol lines. split; [by apply simple_table_rectangular|].
  split; [subst lines lol; simpl; by rewrite length_map|].
  subst lines. unfold table_lines. subst lol.
  set (lol := header :: rest).
  constructor; [|constructor].
  - apply length_render_line, row_fits; [left|done].
  - apply length_render_line, rule_fits.
  - apply Forall_forall. intros line Hline.
    apply list_elem_of_fmap in Hline as (r & -> & Hr).
    apply length_render_line, row_fits; [by right|].
    rewrite Forall_forall in Hrest. by apply Hrest.
Qed.

Lemma rendered_lines_are_aligned_witness :
  Forall (fun r : row => length r = 3)
    [[CBool false; CBool true; CBool true]]
  ∧ length (table_lines sample_rows 4) = 3
  ∧ Forall (fun line => String.length line = 25) (table_lines sample_rows 4).
Proof.
  assert (H : Forall (fun r : row => length r = 3)
                [[CBool false; CBool true; CBool true]]).
  { constructor; [reflexivity|constructor]. }
  split; [exact H|].
  destruct (rendered_lines_are_aligned [CStr "a"; CStr "b"; CStr "e"]
              [[CBool false; CBool true; CBool true]] 4 H) as (_ & H2 & H3).
  split; [exact H2|exact H3].
Defined.

Lemma truth_table_shape unparse (e : node) (heap : nat) (rows : list row) :
  truth_table unparse e heap = Ok rows →
  ∃ header data,
    rows = header :: data
    ∧ length header = S (length (atoms e))
    ∧ length data = 2 ^ length (atoms e)
    ∧ Forall (fun r => length r = S (length (atoms e))) data.
Proof.
  rewrite truth_table_rows. cbn zeta.
  destruct (data_rows _ _) as [data|] eqn:Hd; [|done].
  intros [= <-]. eexists _, data. split; [done|].
  destruct (data_rows_lookup _ _ _ Hd) as [Hl Hrows].
  split; [|split].
  - rewrite length_app, length_map, length_names_at. simpl. lia.
  - by rewrite Hl, length_product_bool.
  - apply Forall_lookup. intros i r Hr.
    assert (Hi : i < length (product [false; true] (length (atoms e)))).
    { rewrite <- Hl. by eapply lookup_lt_Some. }
    destruct (lookup_lt_is_Some_2 _ _ Hi) as [c Hc].
    destruct (Hrows i c Hc) as (b & _ & Hr').
    assert (r = map CBool c ++ [CBool b]) as -> by congruence.
    rewrite length_app, length_map. simpl.
    pose proof (product_bool_widths (length (atoms e))) as Hw.
    rewrite Forall_lookup in Hw. rewrite (Hw i c Hc). lia.
Qed.

(** Whatever table [truth_table] returns, [simple_table] renders it without
    error, in [2^n + 2] lines for [n] operands. *)
Theorem truth_table_output_renders unparse (e : node) (heap sep : nat)
  (rows : list row) :
  truth_table unparse e heap = Ok rows →
  simple_table rows sep
  = Ok (String.concat (String "010" EmptyString) (table_lines rows sep))
  ∧ length (table_lines rows sep)
    = 2 ^ length (collect_names unparse e heap).1 + 2.
Proof.
  intros H. destruct (truth_table_shape _ _ _ _ H)
    as (header & data & -> & Hh & Hd & Hall).
  split.
  - apply simple_table_rectangular. eapply Forall_impl; [exact Hall|].
    intros r Hr. simpl in Hr. lia.
  - rewrite collect_names_atoms. cbn [fst]. rewrite length_names_at.
    simpl. rewrite length_map. lia.
Qed.

Lemma truth_table_output_renders_witness :
  ∃ rows, truth_table sample_unparse a_and_b 0 = Ok rows
          ∧ simple_table rows 4
            = Ok (String.concat (String "010" EmptyString)
                    (table_lines rows 4))
          ∧ length (table_lines rows 4) = 6.
Proof.
  eexists. split; [reflexivity|].
  exact (truth_table_output_renders sample_unparse a_and_b 0 4 _ eq_refl).
Defined.

(** ** Candidates inside candidates *)

Lemma preorder_self (n : node) : n ∈ preorder n.
Proof. destruct n; left. Qed.

Lemma elem_of_flat_map {A B} (f : A → list B) (l : list A) (y : B) :
  y ∈ flat_map f l ↔ ∃ x, x ∈ l ∧ y ∈ f x.
Proof.
  rewrite list_elem_of_In, in_flat_map. split.
  - intros (x & Hx & Hy). exists x. by rewrite !list_elem_of_In.
  - intros (x & Hx & Hy). exists x. by rewrite <- !list_elem_of_In.
Qed.

Lemma preorder_trans (root c m : node) :
  c ∈ preorder root → m ∈ preorder c → m ∈ preorder root.
Proof.
  induction root as [i op values IH|i op operand IH|i k fs IH]
    using node_rect'; intros Hc Hm.
  - cbn [preorder] in Hc |- *. apply elem_of_cons in Hc as [->|Hc]; [done|].
    right. apply elem_of_flat_map in Hc as (v & Hv & Hc).
    apply elem_of_flat_map. exists v. split; [done|].
    rewrite Forall_forall in IH. by apply IH.
  - cbn [preorder] in Hc |- *. apply elem_of_cons in Hc as [->|Hc]; [done|].
    right. by apply IH.
  - cbn [preorder] in Hc |- *. apply elem_of_cons in Hc as [->|Hc]; [done|].
    right. apply elem_of_flat_map in Hc as (f & Hf & Hc).
    apply elem_of_flat_map. exists f. split; [done|].
    rewrite Forall_forall in IH. specialize (IH f Hf).
    destruct f as [s|x|items]; cbn [field_all] in IH.
    + by inversion Hc.
    + by apply IH.
    + apply elem_of_flat_map in Hc as (x & Hx & Hc).
      apply elem_of_flat_map. exists x. split; [done|].
      rewrite Forall_forall in IH. by apply IH.
Qed.

Lemma operand_in_preorder i op (values : list node) (v : node) :
  v ∈ values → v ∈ preorder (BoolOp i op values).
Proof.
  intros Hv. cbn [preorder]. right. apply elem_of_flat_map.
  exists v. split; [done|apply preorder_self].
Qed.

(** An operand of a reported expression that is itself a [BoolOp] passes the
    filter and is reported too: the collector never reports an [and]/[or]
    expression without the [and]/[or] expressions directly under it. *)
Theorem nested_BoolOp_operands_are_reported (root : node) i op
  (values : list node) (v : node) :
  BoolOp i op values ∈ collect_bool_ops root →
  v ∈ values →
  is_BoolOp v = true →
  probably_truthy v = true ∧ v ∈ collect_bool_ops root.
Proof.
  intros Hc Hv Hb. rewrite collect_bool_ops_preorder in Hc |- *.
  apply list_elem_of_In, List.filter_In in Hc as [Hin Hp].
  apply list_elem_of_In in Hin.
  assert (Hpv : probably_truthy v = true).
  { cbn [probably_truthy] in Hp. rewrite forallb_forall in Hp.
    specialize (Hp v (proj1 (list_elem_of_In _ _) Hv)).
    destruct v as [| |j k fs]; [done|done|by destruct k]. }
  split; [done|].
  apply list_elem_of_In, List.filter_In. split; [|done].
  apply list_elem_of_In. eapply preorder_trans; [exact Hin|].
  by apply operand_in_preorder.
Qed.

Lemma nested_BoolOp_operands_are_reported_witness :
  a_and_b_or_c ∈ collect_bool_ops (module_of a_and_b_or_c)
  ∧ BoolOp 2 Or [var 3 "b"; var 4 "c"] ∈ [var 1 "a"; BoolOp 2 Or [var 3 "b"; var 4 "c"]]
  ∧ BoolOp 2 Or [var 3 "b"; var 4 "c"]
    ∈ collect_bool_ops (module_of a_and_b_or_c).
Proof.
  assert (H1 : a_and_b_or_c ∈ collect_bool_ops (module_of a_and_b_or_c))
    by left.
  assert (H2 : BoolOp 2 Or [var 3 "b"; var 4 "c"]
               ∈ [var 1 "a"; BoolOp 2 Or [var 3 "b"; var 4 "c"]])
    by (right; left).
  split; [exact H1|]. split; [exact H2|].
  exact (proj2 (nested_BoolOp_operands_are_reported
                  (module_of a_and_b_or_c) 0 And _ _ H1 H2 eq_refl)).
Defined.

(** ** Name *)

(** [Name.__or__] fails its assertion exactly when the labels differ; when
    they agree, the receiver keeps its label and matches the nodes of both
    names; merging a name with itself changes nothing. *)
Theorem Name_or_merges_nodes (self other : Name) :
  (name self ≠ name other → Name_or self other = Raise AssertionError)
  ∧ (name self = name other →
     ∃ merged,
       Name_or self other = Ok merged
       ∧ name merged = name self
       ∧ oid merged = oid self
       ∧ ∀ n, Name_eq_node merged n
              = Name_eq_node self n || Name_eq_node other n)
  ∧ Name_or self self = Ok self.
Proof.
  unfold Name_or, Name_eq. split; [|split].
  - intros H. by rewrite (proj2 (String.eqb_neq _ _) H).
  - intros H. rewrite (proj2 (String.eqb_eq _ _) H).
    eexists. split; [done|]. split; [done|]. split; [done|].
    intros n. unfold Name_eq_node. cbn [nodes].
    rewrite <- bool_decide_or. apply bool_decide_ext, elem_of_union.
  - rewrite String.eqb_refl. destruct self as [l ns o]. simpl.
    by rewrite union_idemp_L.
Qed.

Lemma Name_or_merges_nodes_witness :
  let first := new_Name sample_unparse (var 1 "a") 0 in
  let again := new_Name sample_unparse (var 3 "a") 2 in
  let other := new_Name sample_unparse (var 2 "b") 1 in
  name first ≠ name other
  ∧ Name_or first other = Raise AssertionError
  ∧ name first = name again
  ∧ ∃ merged, Name_or first again = Ok merged
              ∧ Name_eq_node merged (var 1 "a") = true
              ∧ Name_eq_node merged (var 3 "a") = true.
Proof.
  intros first again other.
  assert (H1 : name first ≠ name other) by discriminate.
  assert (H2 : name first = name again) by reflexivity.
  split; [exact H1|].
  split; [exact (proj1 (Name_or_merges_nodes first other) H1)|].
  split; [exact H2|].
  destruct (proj1 (proj2 (Name_or_merges_nodes first again)) H2)
    as (merged & Hm & _ & _ & Hn).
  exists merged. split; [exact Hm|].
  split; [rewrite Hn; reflexivity|rewrite Hn; reflexivity].
Defined.

(** ** Equality of operand sets *)

Lemma list_equal_same_names (l1 l2 : list Name) :
  map name l1 = map name l2 → list_equal l1 l2 = true.
Proof.
  revert l2. induction l1 as [|a l1 IH]; intros [|b l2] H; try done.
  simpl in H. injection H as Hn H. cbn [list_equal].
  rewrite (IH _ H), andb_true_r. unfold Name_equal, Name_eq.
  rewrite Hn, String.eqb_refl. apply orb_true_r.
Qed.

(** [==] on ordered sets of names looks at the labels only: two sets with
    the same labels in the same order are equal, whatever nodes they hold;
    sets of different lengths are not; and the operands extracted from one
    expression on two occasions are equal, although the [Name] objects are
    new each time. *)
Theorem OrderedSet_eq_compares_labels unparse (self other : OrderedSet)
  (e : node) (heap1 heap2 : nat) :
  (map name self = map name other → OrderedSet_eq self other = true)
  ∧ (len self ≠ len other → OrderedSet_eq self other = false)
  ∧ OrderedSet_eq (collect_names unparse e heap1).1
      (collect_names unparse e heap2).1 = true.
Proof.
  assert (H : ∀ s1 s2, map name s1 = map name s2 → OrderedSet_eq s1 s2 = true).
  { intros s1 s2 Hn. unfold OrderedSet_eq, len.
    rewrite (list_equal_same_names _ _ Hn), andb_true_r.
    apply Nat.eqb_eq.
    by rewrite <- (length_map name s1), Hn, length_map. }
  split; [apply H|]. split.
  - intros Hl. unfold OrderedSet_eq.
    by rewrite (proj2 (Nat.eqb_neq _ _) Hl).
  - apply H. rewrite !collect_names_atoms. cbn [fst].
    by rewrite !name_names_at.
Qed.

Lemma OrderedSet_eq_compares_labels_witness :
  let s1 := (collect_names sample_unparse a_and_b 0).1 in
  let s2 := (collect_names sample_unparse
               (BoolOp 7 Or [var 8 "a"; var 9 "b"]) 5).1 in
  map name s1 = map name s2
  ∧ OrderedSet_eq s1 s2 = true
  ∧ len s1 ≠ len (@nil Name)
  ∧ OrderedSet_eq s1 [] = false.
Proof.
  intros s1 s2.
  assert (H1 : map name s1 = map name s2) by reflexivity.
  assert (H2 : len s1 ≠ len (@nil Name)) by discriminate.
  split; [exact H1|].
  split; [exact (proj1 (OrderedSet_eq_compares_labels sample_unparse s1 s2
                          a_and_b 0 0) H1)|].
  split; [exact H2|].
  exact (proj1 (proj2 (OrderedSet_eq_compares_labels sample_unparse s1 []
                         a_and_b 0 0)) H2).
Defined.

(** ** The causes of the evaluator's errors *)

Lemma subscript_index_ok (names : list Name) (conditions : list bool)
  (v : node) (idx : nat) :
  length names = length conditions →
  index names v = Some idx → ∃ b, subscript conditions idx = Ok b.
Proof.
  intros Hlen Hi. apply subscript_lt. rewrite <- Hlen. by eapply index_lt.
Qed.

Lemma evaluate_values_raise (names : list Name) (conditions : list bool)
  (values : list node) (e : exn) :
  length names = length conditions →
  evaluate_values names conditions values = Raise e →
  ∃ v, v ∈ values ∧ index names v = None
       ∧ evaluate v names conditions = Raise e.
Proof.
  intros Hlen. induction values as [|v values IH]; [done|].
  cbn [evaluate_values]. intros H.
  destruct (index names v) as [idx|] eqn:Ei.
  - destruct (subscript_index_ok _ _ _ _ Hlen Ei) as [b Hb].
    rewrite Hb in H. cbn [bind] in H.
    destruct (evaluate_values names conditions values) as [rs|e'] eqn:Ev;
      [done|].
    injection H as ->. destruct (IH eq_refl) as (v' & Hv' & Hi' & He').
    exists v'. split; [by right|done].
  - destruct (evaluate v names conditions) as [b|e'] eqn:Eb.
    + cbn [bind] in H.
      destruct (evaluate_values names conditions values) as [rs|e''] eqn:Ev;
        [done|].
      injection H as ->. destruct (IH eq_refl) as (v' & Hv' & Hi' & He').
      exists v'. split; [by right|done].
    + injection H as ->. exists v. split; [left|done].
Qed.

Lemma evaluate_raise_cause (n : node) (names : list Name)
  (conditions : list bool) (e : exn) :
  length names = length conditions →
  evaluate n names conditions = Raise e →
  (e = ValueError ∧ ∃ a, a ∈ atoms n ∧ index names a = None)
  ∨ (supported n = false ∧ ∃ cls, e = unsupported cls).
Proof.
  intros Hlen. revert e.
  induction n as [i op values IH|i op operand IH|i k fs _] using node_rect';
    intros e H.
  - rewrite evaluate_BoolOp in H by done.
    destruct (evaluate_values names conditions values) as [rs|e'] eqn:Ev.
    + cbn [bind] in H. right.
      destruct op; try done; injection H as <-; split; try done; by eexists.
    + injection H as ->.
      destruct (evaluate_values_raise _ _ _ _ Hlen Ev) as (v & Hv & _ & He).
      rewrite Forall_forall in IH.
      destruct (IH v Hv e He) as [[-> (a & Ha & Hi)]|[Hs Hc]].
      * left. split; [done|]. exists a. split; [|done].
        cbn [atoms]. apply elem_of_flat_map. by exists v.
      * right. split; [|done]. cbn [supported].
        destruct op; try done; apply not_true_is_false; intros Hall;
          rewrite forallb_forall in Hall;
          specialize (Hall v (proj1 (list_elem_of_In _ _) Hv)); congruence.
  - cbn [evaluate] in H. rewrite Hlen, Nat.eqb_refl in H. cbn [negb] in H.
    destruct op; cbn [unaryop_class_name] in H;
      try (right; injection H as <-; split; [done|by eexists]).
    change (String.eqb "Not" "Not") with true in H. cbn iota in H.
    destruct (evaluate operand names conditions) as [b|e'] eqn:Eo; [done|].
    injection H as ->. exact (IH e eq_refl).
  - cbn [evaluate] in H. rewrite Hlen, Nat.eqb_refl in H. cbn [negb] in H.
    destruct (index names (Generic i k fs)) as [idx|] eqn:Ei.
    + destruct (subscript_index_ok _ _ _ _ Hlen Ei) as [b Hb]. congruence.
    + injection H as <-. left. split; [done|].
      exists (Generic i k fs). split; [left|done].
Qed.

(** When the operands and the conditions have the same length, the
    evaluator raises [ValueError] only for an expression with an operand
    position that no name matches, and otherwise only the error for an
    operator other than [and], [or], [not] in the expression; it raises
    neither [IndexError] nor [AssertionError]. *)
Theorem evaluate_errors_have_causes (n : node) (names : OrderedSet)
  (conditions : list bool) (e : exn) :
  length names = length conditions →
  evaluate n names conditions = Raise e →
  (e = ValueError ∧ ∃ a, a ∈ atoms n ∧ index names a = None)
  ∨ (supported n = false ∧ ∃ cls, e = unsupported cls).
Proof. apply evaluate_raise_cause. Qed.

Lemma evaluate_errors_have_causes_witness :
  length (@nil Name) = length (@nil bool)
  ∧ evaluate a_and_b [] [] = Raise ValueError
  ∧ ((ValueError = ValueError ∧ ∃ a, a ∈ atoms a_and_b ∧ index [] a = None)
     ∨ (supported a_and_b = false ∧ ∃ cls, ValueError = unsupported cls)).
Proof.
  split; [reflexivity|]. split; [reflexivity|].
  exact (evaluate_errors_have_causes a_and_b [] [] ValueError eq_refl eq_refl).
Defined.

Lemma data_rows_raise (eval : list bool → result bool)
  (conditions : list (list bool)) (e : exn) :
  data_rows eval conditions = Raise e →
  ∃ c, c ∈ conditions ∧ eval c = Raise e.
Proof.
  induction conditions as [|c cs IH]; [done|].
  cbn [data_rows]. destruct (eval c) as [b|e'] eqn:Ec.
  - cbn [bind]. destruct (data_rows eval cs) as [d|e''] eqn:Ed; [done|].
    intros [= ->]. destruct (IH eq_refl) as (c' & Hc' & He).
    exists c'. split; [by right|done].
  - intros [= ->]. exists c. split; [left|done].
Qed.

Lemma truth_table_raise_cause unparse (e : node) (heap : nat) (err : exn) :
  truth_table unparse e heap = Raise err →
  supported e = false ∧ ∃ cls, err = unsupported cls.
Proof.
  rewrite truth_table_rows. cbn zeta.
  destruct (data_rows _ _) as [d|err'] eqn:Hd; [done|].
  intros [= ->]. apply data_rows_raise in Hd as (c & Hc & He).
  pose proof (product_bool_widths (length (atoms e))) as Hw.
  rewrite Forall_forall in Hw. specialize (Hw c Hc).
  apply evaluate_raise_cause in He.
  - destruct He as [[_ (a & Ha & Hi)]|H]; [|done].
    destruct (index_names_at unparse (atoms e) heap a Ha) as [idx Hidx].
    congruence.
  - by rewrite length_names_at.
Qed.

Lemma truth_table_supported unparse (e : node) (heap : nat) :
  supported e = true → ∃ rows, truth_table unparse e heap = Ok rows.
Proof.
  intros Hs. destruct (truth_table unparse e heap) as [rows|err] eqn:E.
  - by eexists.
  - apply truth_table_raise_cause in E as [E _]. congruence.
Qed.

(** [truth_table] never fails on the lookup of an operand: the only error it
    raises is the one for an operator other than [and], [or], [not], and
    only for an expression that holds such an operator. *)
Theorem truth_table_fails_only_on_operators unparse (e : node) (heap : nat)
  (err : exn) :
  truth_table unparse e heap = Raise err →
  supported e = false ∧ ∃ cls, err = unsupported cls.
Proof. apply truth_table_raise_cause. Qed.

Lemma truth_table_fails_only_on_operators_witness :
  truth_table sample_unparse a_and_minus_b 0 = Raise (unsupported "USub")
  ∧ supported a_and_minus_b = false.
Proof.
  assert (H : truth_table sample_unparse a_and_minus_b 0
              = Raise (unsupported "USub")) by reflexivity.
  split; [exact H|].
  exact (proj1 (truth_table_fails_only_on_operators sample_unparse
                  a_and_minus_b 0 _ H)).
Defined.

(** ** The padding around a cell *)

(** In a rendered line every cell text stands between at least
    [sep / 2] spaces on its left and at least as many on its right, at most
    one more on the right than on the left, and fills the field of its
    column together with them: with the default [sep] of 4, the texts of
    adjacent columns are at least four spaces apart. *)
Theorem cells_are_padded (lol : list row) (sep : nat) (r : row) (j : nat)
  (c : cell) (w : nat) :
  r ∈ lol →
  r !! j = Some c →
  field_widths lol sep !! j = Some w →
  ∃ left right,
    center (str c) w = str_mul " " left +:+ str c +:+ str_mul " " right
    ∧ sep / 2 ≤ left
    ∧ left ≤ right ≤ left + 1
    ∧ left + String.length (str c) + right = w.
Proof.
  intros Hr Hc Hw. unfold field_widths in Hw.
  rewrite list_lookup_fmap in Hw.
  destruct (seq 0 _ !! j) as [j'|] eqn:Ej; [|done].
  apply lookup_seq in Ej as [-> _].
  assert (w = column_width lol j + sep) as ->
    by (injection Hw as <-; reflexivity).
  pose proof (column_width_bound lol r j c Hr Hc) as Hle.
  set (len := String.length (str c)) in *.
  set (pad := column_width lol j + sep - len).
  exists (pad / 2), (pad - pad / 2). split; [done|].
  pose proof (Nat.div_mod_eq pad 2) as Hdm.
  pose proof (Nat.mod_upper_bound pad 2).
  assert (sep / 2 ≤ pad / 2).
  { apply Nat.Div0.div_le_mono. subst pad. lia. }
  subst pad. lia.
Qed.

Lemma cells_are_padded_witness :
  [CBool false; CBool true; CBool true] ∈ sample_rows
  ∧ ∃ left right,
      center "True" 8 = str_mul " " left +:+ "True" +:+ str_mul " " right
      ∧ 4 / 2 ≤ left ∧ left ≤ right ≤ left + 1 ∧ left + 4 + right = 8.
Proof.
  assert (H : [CBool false; CBool true; CBool true] ∈ sample_rows)
    by (right; left).
  split; [exact H|].
  exact (cells_are_padded sample_rows 4 _ 1 (CBool true) 8 H eq_refl eq_refl).
Defined.

(** ** The report of a file *)

Section report_facts.

Variable unparse : node → string.
Variable lineno : node → nat.
Variable file : string.

Lemma expression_report_supported (heap : nat) (op : node) :
  supported op = true →
  ∃ text, expression_report unparse lineno file heap op = Ok text.
Proof.
  intros Hs. unfold expression_report.
  destruct (truth_table_supported unparse op heap Hs) as [rows Hrows].
  rewrite Hrows. cbn [bind].
  destruct (truth_table_shape _ _ _ _ Hrows)
    as (header & data & -> & Hh & _ & Hall).
  rewrite simple_table_rectangular.
  - by eexists.
  - eapply Forall_impl; [exact Hall|]. intros r Hr. simpl in Hr. lia.
Qed.

Lemma expression_report_raise (heap : nat) (op : node) (err : exn) :
  expression_report unparse lineno file heap op = Raise err →
  supported op = false ∧ ∃ cls, err = unsupported cls.
Proof.
  unfold expression_report.
  destruct (truth_table unparse op heap) as [rows|err'] eqn:Hrows.
  - cbn [bind].
    destruct (truth_table_shape _ _ _ _ Hrows)
      as (header & data & -> & Hh & _ & Hall).
    rewrite simple_table_rectangular; [done|].
    eapply Forall_impl; [exact Hall|]. intros r Hr. simpl in Hr. lia.
  - intros [= ->]. by eapply truth_table_raise_cause.
Qed.

Lemma report_loop (ops : list node) (acc : list string) (heap : nat) :
  match fold_left
          (fun acc op =>
             let* state := acc in
             let* text := expression_report unparse lineno file state.2 op in
             Ok (state.1 ++ [text], (collect_names unparse op state.2).2))
          ops (Ok (acc, heap)) with
  | Ok state => length state.1 = length acc + length ops
  | Raise err =>
      ∃ op, op ∈ ops ∧ supported op = false ∧ ∃ cls, err = unsupported cls
  end.
Proof.
  revert acc heap. induction ops as [|op ops IH]; intros acc heap.
  - simpl. lia.
  - cbn [fold_left bind fst snd].
    destruct (expression_report unparse lineno file heap op) as [text|err]
      eqn:E.
    + cbn [bind].
      specialize (IH (acc ++ [text]) (collect_names unparse op heap).2).
      destruct (fold_left _ ops _) as [state|err].
      * rewrite length_app in IH. simpl in IH |- *. lia.
      * destruct IH as (op' & Hop' & Hs & Hc). exists op'.
        split; [by right|done].
    + cbn [bind].
      assert (Hr : ∀ l, fold_left
                (fun acc op =>
                   let* state := acc in
                   let* text := expression_report unparse lineno file state.2 op in
                   Ok (state.1 ++ [text], (collect_names unparse op state.2).2))
                l (Raise err) = Raise err).
      { induction l as [|x l IHl]; [done|]. simpl. exact IHl. }
      rewrite Hr. exists op. split; [left|].
      by apply (expression_report_raise heap).
Qed.

End report_facts.

(** The report of a file: when every expression that the collector reports
    is built with [and], [or] and [not] only, the report is produced; when
    the program fails instead, the error is the one for an unimplemented
    operator, and one of the reported expressions holds such an operator;
    nothing of the report survives the failure.  A tree without candidate
    gives the empty text. *)
Theorem file_report_all_or_nothing unparse lineno (file : string)
  (tree : node) (heap : nat) :
  (Forall (fun op => supported op = true) (collect_bool_ops tree) →
   ∃ text, file_report unparse lineno file tree heap = Ok text)
  ∧ (∀ err,
        file_report unparse lineno file tree heap = Raise err →
        ∃ op, op ∈ collect_bool_ops tree
              ∧ supported op = false ∧ ∃ cls, err = unsupported cls)
  ∧ (collect_bool_ops tree = [] →
     file_report unparse lineno file tree heap = Ok "").
Proof.
  unfold file_report.
  pose proof (report_loop unparse lineno file (collect_bool_ops tree) [] heap)
    as H.
  destruct (fold_left _ (collect_bool_ops tree) _) as [state|err0] eqn:E.
  - cbn [bind]. split; [intros _; by eexists|]. split; [done|].
    intros Hnil. rewrite Hnil in H. simpl in H.
    destruct state as [[|x l] h]; [done|discriminate].
  - cbn [bind]. destruct H as (op & Hop & Hs & Hc). split; [|split].
    + intros Hall. rewrite Forall_forall in Hall.
      specialize (Hall op Hop). congruence.
    + intros err [= <-]. by exists op.
    + intros Hnil. rewrite Hnil in Hop. by inversion Hop.
Qed.

Lemma file_report_all_or_nothing_witness :
  let lineno := fun _ : node => 211 in
  Forall (fun op => supported op = true)
    (collect_bool_ops (module_of a_and_b))
  ∧ (∃ text, file_report sample_unparse lineno "truth_table.py"
               (module_of a_and_b) 0 = Ok text)
  ∧ file_report sample_unparse lineno "truth_table.py"
      (module_of a_and_minus_b) 0 = Raise (unsupported "USub")
  ∧ ∃ op, op ∈ collect_bool_ops (module_of a_and_minus_b)
          ∧ supported op = false.
Proof.
  intros lineno.
  assert (H1 : Forall (fun op => supported op = true)
                 (collect_bool_ops (module_of a_and_b))).
  { constructor; [reflexivity|constructor]. }
  assert (H2 : file_report sample_unparse lineno "truth_table.py"
                 (module_of a_and_minus_b) 0 = Raise (unsupported "USub"))
    by reflexivity.
  split; [exact H1|].
  split; [exact (proj1 (file_report_all_or_nothing sample_unparse lineno
                          "truth_table.py" (module_of a_and_b) 0) H1)|].
  split; [exact H2|].
  destruct (proj1 (proj2 (file_report_all_or_nothing sample_unparse lineno
                            "truth_table.py" (module_of a_and_minus_b) 0))
              _ H2) as (op & Hop & Hs & _).
  exists op. split; [exact Hop|exact Hs].
Defined.

(** ** No table for an unimplemented operator *)





(** ** The linked cells implement the ordered list of keys *)

Lemma map_lookup_contains (m : list (Name * nat)) (key : Name) :
  contains (map fst m) key
  = match map_lookup m key with Some _ => true | None => false end.
Proof.
  induction m as [|[k a] m IH]; [done|].
  cbn [map fst map_lookup]. unfold contains in *. cbn [existsb].
  destruct (same_key k key); [done|]. exact IH.
Qed.

Lemma map_remove_unlink (m : list (Name * nat)) (key : Name) :
  map fst (map_remove m key) = unlink (map fst m) key.
Proof.
  induction m as [|[k a] m IH]; [done|].
  cbn [map fst map_remove unlink].
  destruct (same_key k key); [done|]. cbn [map fst]. by rewrite IH.
Qed.

Lemma map_lookup_split (m : list (Name * nat)) (key : Name) (a : nat) :
  map_lookup m key = Some a →
  ∃ l1 k l2, m = l1 ++ (k, a) :: l2 ∧ map_remove m key = l1 ++ l2.
Proof.
  induction m as [|[k0 a0] m IH]; [done|].
  cbn [map_lookup map_remove]. destruct (same_key k0 key).
  - intros [= ->]. by exists [], k0, m.
  - intros H. destruct (IH H) as (l1 & k & l2 & -> & ->).
    by exists ((k0, a0) :: l1), k, l2.
Qed.

Lemma head_or_app (q : nat) (l1 l2 : list (Name * nat)) :
  head_or q (l1 ++ l2) = head_or (head_or q l2) l1.
Proof. by destruct l1 as [|[k a] l1]. Qed.

Lemma last_or_app (p : nat) (l1 l2 : list (Name * nat)) :
  last_or p (l1 ++ l2) = last_or (last_or p l1) l2.
Proof.
  unfold last_or. destruct l2 as [|x l2] using rev_ind.
  - by rewrite app_nil_r.
  - by rewrite app_assoc, !last_snoc.
Qed.

Lemma last_or_cons (p : nat) (k : Name) (a : nat) (l : list (Name * nat)) :
  last_or p ((k, a) :: l) = last_or a l.
Proof. exact (last_or_app p [(k, a)] l). Qed.

Lemma chain_frame (s s' : gmap nat link) (p q : nat)
  (items : list (Name * nat)) :
  (∀ a, a ∈ map snd items → s' !! a = s !! a) →
  chain s p items q → chain s' p items q.
Proof.
  revert p. induction items as [|[k a] items IH]; intros p Hs; [done|].
  cbn [chain]. intros [Ha Hc]. split.
  - rewrite Hs; [done|left].
  - apply IH; [|done]. intros b Hb. apply Hs. by right.
Qed.

Lemma chain_app (s : gmap nat link) (p q : nat) (l1 l2 : list (Name * nat)) :
  chain s p (l1 ++ l2) q
  ↔ chain s p l1 (head_or q l2) ∧ chain s (last_or p l1) l2 q.
Proof.
  revert p. induction l1 as [|[k a] l1 IH]; intros p.
  - cbn [app chain]. unfold last_or. simpl. tauto.
  - cbn [app chain]. rewrite IH, head_or_app, last_or_cons. tauto.
Qed.

Lemma chain_allocated (s : gmap nat link) (p q : nat)
  (items : list (Name * nat)) (a : nat) :
  chain s p items q → a ∈ map snd items → is_Some (s !! a).
Proof.
  revert p. induction items as [|[k b] items IH]; intros p Hc Ha.
  - inversion Ha.
  - destruct Hc as [Hb Hc]. apply elem_of_cons in Ha as [->|Ha].
    + by eexists.
    + by eapply IH.
Qed.

Lemma last_or_in (p : nat) (items : list (Name * nat)) :
  items ≠ [] → last_or p items ∈ map snd items.
Proof.
  intros H. destruct items as [|x items] using rev_ind; [done|].
  unfold last_or. rewrite last_snoc. destruct x as [k a].
  rewrite map_app. apply elem_of_app. right. left.
Qed.

Lemma head_or_in (q : nat) (items : list (Name * nat)) :
  items ≠ [] → head_or q items ∈ map snd items.
Proof. intros H. destruct items as [|[k a] items]; [done|left]. Qed.

Lemma head_or_nonempty (q q' : nat) (items : list (Name * nat)) :
  items ≠ [] → head_or q items = head_or q' items.
Proof. by destruct items as [|[k a] items]. Qed.

Lemma last_or_nonempty (p p' : nat) (items : list (Name * nat)) :
  items ≠ [] → last_or p items = last_or p' items.
Proof.
  intros H. destruct items as [|x items] using rev_ind; [done|].
  unfold last_or. by rewrite last_snoc.
Qed.

Lemma lookup_set_next (s : gmap nat link) (a v b : nat) :
  set_next a v s !! b
  = if decide (a = b)
    then (fun c => mkLink (lkey c) (lprev c) v) <$> s !! b
    else s !! b.
Proof.
  unfold set_next. destruct (decide (a = b)) as [->|H].
  - by rewrite lookup_alter_eq.
  - by rewrite lookup_alter_ne.
Qed.

Lemma lookup_set_prev (s : gmap nat link) (a v b : nat) :
  set_prev a v s !! b
  = if decide (a = b)
    then (fun c => mkLink (lkey c) v (lnext c)) <$> s !! b
    else s !! b.
Proof.
  unfold set_prev. destruct (decide (a = b)) as [->|H].
  - by rewrite lookup_alter_eq.
  - by rewrite lookup_alter_ne.
Qed.

(** The last cell of a run gets a new successor. *)
Lemma chain_retarget (s : gmap nat link) (p q q' : nat)
  (items : list (Name * nat)) :
  NoDup (map snd items) →
  chain s p items q →
  chain (set_next (last_or p items) q' s) p items q'.
Proof.
  revert p. induction items as [|[k a] items IH]; intros p Hnd; [done|].
  cbn [map snd] in Hnd. apply NoDup_cons in Hnd as [Ha Hnd].
  cbn [chain]. intros [Hc Hrest]. rewrite last_or_cons.
  destruct items as [|x items].
  - split; [|done]. unfold last_or. simpl.
    rewrite lookup_set_next, decide_True by done. by rewrite Hc.
  - split.
    + rewrite lookup_set_next, decide_False.
      * rewrite Hc. by rewrite (head_or_nonempty q q').
      * intros E. apply Ha. rewrite <- E. by apply last_or_in.
    + by apply IH.
Qed.

(** The first cell of a run gets a new predecessor. *)
Lemma chain_reprev (s : gmap nat link) (p p' q : nat)
  (items : list (Name * nat)) :
  NoDup (map snd items) →
  chain s p items q →
  chain (set_prev (head_or q items) p' s) p' items q.
Proof.
  destruct items as [|[k a] items]; [done|].
  cbn [map snd head_or chain]. intros Hnd [Hc Hrest].
  apply NoDup_cons in Hnd as [Ha Hnd]. split.
  - rewrite lookup_set_prev, decide_True by done. by rewrite Hc.
  - eapply chain_frame; [|exact Hrest].
    intros b Hb. rewrite lookup_set_prev, decide_False; [done|].
    intros ->. done.
Qed.

Lemma represents_add (self : linked_set) (l : OrderedSet) (key : Name) :
  represents self l → represents (linked_add self key) (add l key).
Proof.
  intros (Hl & Hnd & Hfree & Hend & Hchain). unfold linked_add, add.
  rewrite <- Hl, map_lookup_contains.
  destruct (map_lookup (map_ self) key) as [a|]; [by repeat split|].
  rewrite Hend. cbn [lprev].
  set (e := end_ self) in *. set (m := map_ self) in *.
  set (new := free self). set (curr := last_or e m).
  assert (Hnew : new ∉ e :: map snd m).
  { intros Hin. specialize (Hfree new Hin). subst new. lia. }
  assert (Hne : new ≠ e) by (intros E; apply Hnew; rewrite E; left).
  apply NoDup_cons in Hnd as [He Hnd].
  assert (Hcurr : curr ≠ new).
  { intros E. destruct m as [|x m'] eqn:Em.
    - unfold curr, last_or in E. simpl in E. congruence.
    - apply Hnew. right. rewrite <- E. by apply last_or_in. }
  unfold represents. cbn [map_ end_ cells free].
  split; [by rewrite map_app|]. split; [|split; [|split]].
  - rewrite map_app. cbn [map snd]. apply NoDup_cons. split.
    + intros Hin. apply elem_of_app in Hin as [Hin|Hin]; [done|].
      apply list_elem_of_singleton in Hin. congruence.
    + apply NoDup_app. split; [done|]. split; [|apply NoDup_singleton].
      intros b Hb Hb'. apply list_elem_of_singleton in Hb' as ->.
      apply Hnew. by right.
  - intros b Hb. rewrite map_app in Hb. cbn [map snd] in Hb.
    apply elem_of_cons in Hb as [->|Hb].
    + specialize (Hfree e ltac:(left)). fold new. lia.
    + apply elem_of_app in Hb as [Hb|Hb].
      * specialize (Hfree b ltac:(by right)). fold new. lia.
      * apply list_elem_of_singleton in Hb as ->. fold new. lia.
  - rewrite lookup_set_prev, decide_True by done.
    rewrite lookup_set_next, lookup_insert_ne by done.
    rewrite last_or_app, head_or_app.
    destruct m as [|x m'] eqn:Em.
    + unfold curr, last_or. simpl. rewrite decide_True by done.
      rewrite Hend. done.
    + rewrite decide_False.
      * rewrite Hend. cbn [head_or last_or last]. done.
      * intros E. apply He. rewrite <- E. by apply last_or_in.
  - apply chain_app. split.
    + cbn [head_or].
      eapply chain_frame; [|apply (chain_retarget _ _ _ new _ Hnd Hchain)].
      intros b Hb. fold curr.
      assert (b ≠ e) by (intros ->; done).
      assert (b ≠ new) by (intros ->; apply Hnew; by right).
      rewrite lookup_set_prev, decide_False by done.
      rewrite !lookup_set_next.
      destruct (decide (curr = b)); by rewrite lookup_insert_ne.
    + cbn [chain head_or]. split; [|done].
      rewrite lookup_set_prev, decide_False by done.
      rewrite lookup_set_next, decide_False by done.
      by rewrite lookup_insert_eq.
Qed.

Lemma represents_discard (self : linked_set) (l : OrderedSet) (key : Name) :
  represents self l → represents (linked_discard self key) (discard l key).
Proof.
  intros (Hl & Hnd & Hfree & Hend & Hchain). unfold linked_discard, discard.
  rewrite <- Hl, map_lookup_contains.
  destruct (map_lookup (map_ self) key) as [a|] eqn:Hlook; [|by repeat split].
  destruct (map_lookup_split _ _ _ Hlook) as (l1 & k & l2 & Hm & Hrem).
  set (e := end_ self) in *. rewrite Hm in Hnd, Hfree, Hend, Hchain.
  apply chain_app in Hchain as [Hc1 Hc2]. cbn [head_or] in Hc1.
  cbn [chain] in Hc2. destruct Hc2 as [Ha Hc2]. rewrite Ha.
  cbn [lprev lnext].
  set (P := last_or e l1) in *. set (N := head_or e l2) in *.
  apply NoDup_cons in Hnd as [He Hnd].
  rewrite map_app in He, Hnd. cbn [map snd] in He, Hnd.
  apply NoDup_app in Hnd as (Hnd1 & Hdisj & Hnd2).
  apply NoDup_cons in Hnd2 as [Ha2 Hnd2].
  assert (He1 : e ∉ map snd l1).
  { intros H. apply He, elem_of_app. by left. }
  assert (He2 : e ∉ map snd l2).
  { intros H. apply He, elem_of_app. right. by right. }
  assert (Hd12 : ∀ b, b ∈ map snd l1 → b ∉ map snd l2).
  { intros b Hb1 Hb2. apply (Hdisj b Hb1). by right. }
  assert (HP2 : P ∉ map snd l2).
  { destruct l1 as [|x l1'] eqn:E1; [by unfold P, last_or|].
    apply Hd12. by apply last_or_in. }
  assert (HN1 : N ∉ map snd l1).
  { destruct l2 as [|x l2'] eqn:E2; [by unfold N|].
    intros H. apply (Hd12 _ H). by apply head_or_in. }
  unfold represents. cbn [map_ end_ cells free]. fold e.
  split; [by rewrite map_remove_unlink|]. rewrite Hrem.
  split; [|split; [|split]].
  - apply NoDup_cons. rewrite map_app. split.
    + intros H. apply elem_of_app in H as [H|H]; done.
    + apply NoDup_app. split; [done|]. split; [|done].
      intros b Hb1 Hb2. by apply (Hd12 b).
  - intros b Hb. apply Hfree. rewrite map_app in Hb |- *.
    apply elem_of_cons in Hb as [->|Hb]; [left|].
    right. apply elem_of_app in Hb as [Hb|Hb]; apply elem_of_app;
      [by left|right; by right].
  - rewrite last_or_app, head_or_app. fold P N.
    rewrite lookup_set_prev, lookup_set_next, Hend.
    rewrite last_or_app, head_or_app, last_or_cons. cbn [head_or].
    destruct l1 as [|x1 l1'] eqn:E1, l2 as [|x2 l2'] eqn:E2.
    + unfold P, N, last_or. simpl. rewrite !decide_True by done. done.
    + assert (N ≠ e) by (intros E; apply He2; rewrite <- E; by apply head_or_in).
      unfold P. unfold last_or at 1 2. simpl.
      rewrite decide_False, decide_True by done. cbn.
      do 2 f_equal. by apply last_or_nonempty.
    + assert (P ≠ e) by (intros E; apply He1; rewrite <- E; by apply last_or_in).
      unfold N. simpl. rewrite decide_True, decide_False by done. cbn.
      done.
    + assert (N ≠ e) by (intros E; apply He2; rewrite <- E; by apply head_or_in).
      assert (P ≠ e) by (intros E; apply He1; rewrite <- E; by apply last_or_in).
      rewrite !decide_False by done. do 2 f_equal.
      by apply last_or_nonempty.
  - apply chain_app. fold P N. split.
    + eapply chain_frame; [|apply (chain_retarget _ _ _ N _ Hnd1 Hc1)].
      intros b Hb. fold P. rewrite lookup_set_prev, decide_False; [done|].
      intros ->. done.
    + apply (chain_reprev _ a); [done|].
      eapply chain_frame; [|exact Hc2].
      intros b Hb. rewrite lookup_set_next, decide_False; [done|].
      intros ->. done.
Qed.

Lemma walk_next (s : gmap nat link) (p q : nat) (items : list (Name * nat))
  (fuel : nat) :
  chain s p items q → q ∉ map snd items → length items ≤ fuel →
  walk lnext s q (head_or q items) fuel = Some (map fst items).
Proof.
  revert p fuel. induction items as [|[k a] items IH]; intros p fuel Hc Hq Hf.
  - cbn [head_or]. destruct fuel; simpl; by rewrite Nat.eqb_refl.
  - destruct fuel as [|fuel]; [simpl in Hf; lia|].
    destruct Hc as [Ha Hc]. cbn [head_or walk].
    assert (a ≠ q) by (intros ->; apply Hq; left).
    rewrite (proj2 (Nat.eqb_neq a q)) by done.
    rewrite Ha. cbn [lkey lnext].
    rewrite (IH a fuel Hc); [done| |simpl in Hf; lia].
    intros Hin. apply Hq. by right.
Qed.

Lemma walk_prev (s : gmap nat link) (p q : nat) (items : list (Name * nat))
  (fuel : nat) :
  chain s p items q → p ∉ map snd items → length items ≤ fuel →
  walk lprev s p (last_or p items) fuel = Some (rev (map fst items)).
Proof.
  revert q fuel. induction items as [|[k a] items IH] using rev_ind;
    intros q fuel Hc Hp Hf.
  - unfold last_or. simpl. destruct fuel; simpl; by rewrite Nat.eqb_refl.
  - rewrite length_app in Hf. simpl in Hf.
    destruct fuel as [|fuel]; [lia|].
    apply chain_app in Hc as [Hc1 [Ha _]]. cbn [head_or] in Hc1, Ha.
    rewrite map_app in Hp |- *. cbn [map fst snd] in Hp |- *.
    rewrite rev_unit, last_or_app.
    change (last_or (last_or p items) [(k, a)]) with a.
    assert (a ≠ p).
    { intros ->. apply Hp, elem_of_app. right. left. }
    cbn [walk]. rewrite (proj2 (Nat.eqb_neq a p)) by done.
    rewrite Ha. cbn [lkey lprev].
    rewrite (IH a fuel Hc1); [done| |lia].
    intros Hin. apply Hp, elem_of_app. by left.
Qed.

Lemma length_le_size (m : gmap nat link) (l : list nat) :
  NoDup l → (∀ a, a ∈ l → is_Some (m !! a)) → length l ≤ size m.
Proof.
  intros Hnd Hin.
  rewrite <- (size_list_to_set (C := gset nat) l Hnd), <- size_dom.
  apply subseteq_size. intros a Ha.
  apply elem_of_list_to_set in Ha. apply elem_of_dom. by apply Hin.
Qed.

Lemma represents_fuel (self : linked_set) (l : OrderedSet) :
  represents self l → length (map_ self) ≤ size (cells self).
Proof.
  intros (_ & Hnd & _ & _ & Hchain).
  apply NoDup_cons in Hnd as [_ Hnd].
  rewrite <- (length_map snd). apply length_le_size; [done|].
  intros a Ha. by eapply chain_allocated.
Qed.

Lemma represents_new (free : nat) : represents (linked_new free) [].
Proof.
  unfold represents, linked_new. cbn [map_ end_ cells].
  split; [done|]. split; [apply NoDup_singleton|].
  split; [|split; [|done]].
  - intros a Ha. apply list_elem_of_singleton in Ha as ->. simpl. lia.
  - by rewrite lookup_singleton_eq.
Qed.

(** The cells of an [OrderedSet] after [add] and after [discard] hold the
    keys that the model on lists computes: a new set holds no key, and the
    ring of cells through the sentinel and the dictionary stay in step with
    the list of keys under both operations. *)
Theorem linked_cells_follow_the_list (self : linked_set) (l : OrderedSet)
  (key : Name) (free : nat) :
  represents (linked_new free) []
  ∧ (represents self l →
     represents (linked_add self key) (add l key)
     ∧ represents (linked_discard self key) (discard l key)).
Proof.
  split; [apply represents_new|]. intros H.
  split; [by apply represents_add|by apply represents_discard].
Qed.

Lemma linked_cells_follow_the_list_witness :
  let a := new_Name sample_unparse (var 1 "a") 0 in
  let b := new_Name sample_unparse (var 2 "b") 1 in
  represents (linked_new 7) []
  ∧ represents (linked_add (linked_new 7) a) (add [] a)
  ∧ represents (linked_discard (linked_new 7) b) (discard [] b).
Proof.
  intros a b.
  destruct (linked_cells_follow_the_list (linked_new 7) [] a 7) as [H0 Ha].
  split; [exact H0|]. split; [exact (proj1 (Ha H0))|].
  exact (proj2 (proj2 (linked_cells_follow_the_list (linked_new 7) [] b 7) H0)).
Defined.

Lemma represents_observe (self : linked_set) (l : OrderedSet) (key : Name) :
  represents self l →
  linked_iter self = Some l
  ∧ linked_reversed self = Some (reversed l)
  ∧ linked_len self = len l
  ∧ linked_contains self key = contains l key.
Proof.
  intros H. pose proof (represents_fuel self l H) as Hfuel.
  destruct H as (Hl & Hnd & Hfree & Hend & Hchain).
  apply NoDup_cons in Hnd as [He Hnd].
  unfold linked_iter, linked_reversed, linked_len, linked_contains, reversed,
    len.
  rewrite Hend. cbn [lnext lprev]. rewrite <- Hl.
  split; [by eapply walk_next|]. split; [by eapply walk_prev|].
  split; [by rewrite length_map|]. by rewrite map_lookup_contains.
Qed.

(** Walking the cells of a set gives its keys: [__iter__] ends and yields
    the keys in order, [__reversed__] yields them in the opposite order,
    [__len__] is their number and [__contains__] decides membership among
    them. *)
Theorem linked_walk_yields_the_keys (self : linked_set) (l : OrderedSet)
  (key : Name) :
  represents self l →
  linked_iter self = Some l
  ∧ linked_reversed self = Some (reversed l)
  ∧ linked_len self = len l
  ∧ linked_contains self key = contains l key.
Proof. apply represents_observe. Qed.

Lemma linked_walk_yields_the_keys_witness :
  let a := new_Name sample_unparse (var 1 "a") 0 in
  represents (linked_new 7) []
  ∧ linked_iter (linked_new 7) = Some []
  ∧ linked_contains (linked_new 7) a = contains [] a.
Proof.
  intros a. pose proof (represents_new 7) as H.
  destruct (linked_walk_yields_the_keys (linked_new 7) [] a H)
    as (H1 & _ & _ & H4).
  split; [exact H|]. split; [exact H1|exact H4].
Defined.

Lemma represents_run (ops : list set_op) (self : linked_set)
  (l : OrderedSet) :
  represents self l →
  represents (fold_left linked_apply ops self) (fold_left list_apply ops l).
Proof.
  revert self l. induction ops as [|o ops IH]; intros self l H; [done|].
  cbn [fold_left]. apply IH. destruct o; cbn [linked_apply list_apply].
  - by apply represents_add.
  - by apply represents_discard.
Qed.

Lemma distinct_run (ops : list set_op) (l : OrderedSet) :
  distinct_keys l → distinct_keys (fold_left list_apply ops l).
Proof.
  revert l. induction ops as [|o ops IH]; intros l Hl; [done|].
  cbn [fold_left]. apply IH. destruct o; cbn [list_apply].
  - by apply distinct_add.
  - unfold discard. destruct (contains l key); [|done].
    by apply distinct_unlink.
Qed.

(** After any sequence of [add] and [discard] on a new [OrderedSet],
    iterating over the cells ends and yields exactly the keys, in the order,
    that the same sequence gives on the list of keys; the reversed iteration
    yields them backwards. *)
Theorem linked_set_behaves_as_the_list (ops : list set_op) (free : nat) :
  let self := fold_left linked_apply ops (linked_new free) in
  let l := fold_left list_apply ops [] in
  linked_iter self = Some l
  ∧ linked_reversed self = Some (rev l)
  ∧ linked_len self = length l
  ∧ distinct_keys l.
Proof.
  intros self l.
  pose proof (represents_run ops _ _ (represents_new free)) as H.
  fold self l in H.
  assert (Hd : distinct_keys l).
  { apply distinct_run. apply NoDup_nil_2. }
  destruct (represents_observe self l (new_Name sample_unparse (var 0 "") 0) H)
    as (H1 & H2 & H3 & _).
  done.
Qed.

Lemma linked_set_behaves_as_the_list_witness :
  let a := new_Name sample_unparse (var 1 "a") 0 in
  let b := new_Name sample_unparse (var 2 "b") 1 in
  let ops := [Add a; Add b; Add a; Discard a; Add a] in
  fold_left list_apply ops [] = [b; a]
  ∧ linked_iter (fold_left linked_apply ops (linked_new 7)) = Some [b; a]
  ∧ linked_reversed (fold_left linked_apply ops (linked_new 7)) = Some [a; b].
Proof.
  intros a b ops.
  destruct (linked_set_behaves_as_the_list ops 7) as (H1 & H2 & _).
  split; [reflexivity|]. split; [exact H1|exact H2].
Defined.
